(** * The cleaning stage of the e-commerce EDA script (src/main.py)

    The script is one linear pandas program.  This development embeds the
    part with decision logic: the date coercion of line 21, the cleaning tab
    (lines 38-76), the column lists of lines 84-86 and the daily
    open/high/low/close aggregation of lines 140-147.

    Modelling conventions.
    - A [DataFrame] is columnar, as in pandas: an index of row labels and an
      ordered list of named, typed columns.  Row selection goes through a
      boolean mask applied to the index and to every column.
    - float64 values are rationals ([Q]) and finite arithmetic on them is
      exact; the infinities are the two rationals [float_inf] and its
      opposite, and a sum at or beyond [float_overflow] in magnitude
      overflows to them.  NaN, NaT and None are the missing marker ([None]).
    - A Python exception is a value of [exn] carried by [result].
    - [df[col].fillna(v, inplace=True)] updates the frame, as it does in
      pandas without copy-on-write (the behaviour the script relies on).
    - The string/number to timestamp conversions inside [pd.to_datetime],
      and its choice between a datetime64 and an object result, belong to
      pandas and are parameters of the model. *)

From HB Require Import structures.
From Stdlib Require Import ZArith QArith String Ascii Lia Lqa.
From mathcomp Require Import ssreflect ssrfun ssrbool eqtype ssrnat seq path.

Set Implicit Arguments.
Unset Strict Implicit.
Unset Printing Implicit Defensive.

Local Close Scope Q_scope.
Local Close Scope Z_scope.
Local Open Scope string_scope.
Local Open Scope seq_scope.

(** ** Exceptions and results *)

Inductive exn : Type :=
| KeyError (key : string)      (* df['missing column'] *)
| ModeKeyError                 (* df[col].mode()[0] on an empty mode *)
| TypeError                    (* ordering a str or a Timestamp against 0 *)
| AttributeError.              (* .dt on a column that is not datetime *)

Inductive result (A : Type) : Type :=
| Ok (a : A)
| Raise (e : exn).

Arguments Ok {A} a.
Arguments Raise {A} e.

Definition bind {A B} (r : result A) (k : A -> result B) : result B :=
  match r with
  | Ok a => k a
  | Raise e => Raise e
  end.

Notation "x <-- r ;; k" := (bind r (fun x => k))
  (at level 61, r at next level, right associativity).

Definition is_ok {A} (r : result A) : bool :=
  if r is Ok _ then true else false.

(** [mapM]: a [for] loop whose body may raise; the first exception wins. *)
Fixpoint mapM {A B} (f : A -> result B) (s : seq A) : result (seq B) :=
  if s is a :: s' then
    b <-- f a ;; bs <-- mapM f s' ;; Ok (b :: bs)
  else Ok [::].

(** ** Equality structures for the key types *)

HB.instance Definition _ := hasDecEq.Build string String.eqb_spec.
HB.instance Definition _ := hasDecEq.Build Z Z.eqb_spec.
HB.instance Definition _ := hasDecEq.Build positive Pos.eqb_spec.

Definition Q_to_pair (q : Q) : Z * positive := (Qnum q, Qden q).
Definition pair_to_Q (p : Z * positive) : Q := Qmake p.1 p.2.
Definition Q_pairK : cancel Q_to_pair pair_to_Q :=
  fun q => match q with Qmake _ _ => erefl end.
HB.instance Definition _ := Equality.copy Q (can_type Q_pairK).

(** ** Columns and frames *)

(** A cell of an [object] column: a [str] or a Python [bool] (what
    [read_csv] leaves in a column of text, resp. of True/False with blanks),
    or a [Timestamp] or [datetime] (left behind when NaT is filled with a
    string, or by [to_datetime] on strings whose UTC offsets differ),
    identified by its instant. *)
Inductive pyobj : Type :=
| PStr (s : string)
| PTimestamp (t : Z)
| PBool (b : bool).

Definition pyobj_to_sum (o : pyobj) : string + Z + bool :=
  match o with
  | PStr s => inl (inl s)
  | PTimestamp t => inl (inr t)
  | PBool b => inr b
  end.
Definition sum_to_pyobj (x : string + Z + bool) : pyobj :=
  match x with
  | inl (inl s) => PStr s
  | inl (inr t) => PTimestamp t
  | inr b => PBool b
  end.
Definition pyobj_sumK : cancel pyobj_to_sum sum_to_pyobj :=
  fun o => match o with PStr _ | PTimestamp _ | PBool _ => erefl end.
HB.instance Definition _ := Equality.copy pyobj (can_type pyobj_sumK).

(** Timestamps are nanoseconds since the epoch, as in datetime64[ns]. *)
Inductive column : Type :=
| Int64 (xs : seq Z)
| Float64 (xs : seq (option Q))
| Object (xs : seq (option pyobj))
| Bool (xs : seq bool)
| Datetime64 (xs : seq (option Z)).

Definition column_to_sum (c : column)
  : seq Z + seq (option Q) + seq (option pyobj) + seq bool + seq (option Z) :=
  match c with
  | Int64 xs => inl (inl (inl (inl xs)))
  | Float64 xs => inl (inl (inl (inr xs)))
  | Object xs => inl (inl (inr xs))
  | Bool xs => inl (inr xs)
  | Datetime64 xs => inr xs
  end.
Definition sum_to_column
  (x : seq Z + seq (option Q) + seq (option pyobj) + seq bool + seq (option Z))
  : column :=
  match x with
  | inl (inl (inl (inl xs))) => Int64 xs
  | inl (inl (inl (inr xs))) => Float64 xs
  | inl (inl (inr xs)) => Object xs
  | inl (inr xs) => Bool xs
  | inr xs => Datetime64 xs
  end.
Definition column_sumK : cancel column_to_sum sum_to_column :=
  fun c => match c with
           | Int64 _ | Float64 _ | Object _ | Bool _ | Datetime64 _ => erefl
           end.
HB.instance Definition _ := Equality.copy column (can_type column_sumK).

Inductive dtype : Type := int64 | float64 | object | bool_ | datetime64.

Definition dtype_of (c : column) : dtype :=
  match c with
  | Int64 _ => int64
  | Float64 _ => float64
  | Object _ => object
  | Bool _ => bool_
  | Datetime64 _ => datetime64
  end.

Definition col_size (c : column) : nat :=
  match c with
  | Int64 xs => size xs
  | Float64 xs => size xs
  | Object xs => size xs
  | Bool xs => size xs
  | Datetime64 xs => size xs
  end.

Record DataFrame : Type := mkDataFrame {
  index : seq nat;
  columns : seq (string * column)
}.

Definition nrows (df : DataFrame) : nat := size (index df).

Definition column_names (df : DataFrame) : seq string :=
  [seq nc.1 | nc <- columns df].

(** Every column is as long as the index and labels are not repeated. *)
Definition wf (df : DataFrame) : bool :=
  uniq (index df) && all (fun nc => col_size nc.2 == nrows df) (columns df).

(** [df[name]] *)
Fixpoint lookup (name : string) (cs : seq (string * column)) : option column :=
  if cs is (n, c) :: cs' then
    if String.eqb n name then Some c else lookup name cs'
  else None.

Definition getitem (df : DataFrame) (name : string) : result column :=
  if lookup name (columns df) is Some c then Ok c else Raise (KeyError name).

(** [df[name] = c]: replaces the column in place, or appends a new one. *)
Fixpoint assign (name : string) (c : column) (cs : seq (string * column))
  : seq (string * column) :=
  if cs is (n, c0) :: cs' then
    if String.eqb n name then (n, c) :: cs' else (n, c0) :: assign name c cs'
  else [:: (name, c)].

Definition setitem (df : DataFrame) (name : string) (c : column) : DataFrame :=
  mkDataFrame (index df) (assign name c (columns df)).

(** ** Row selection by a boolean mask: [df[mask]] *)

Definition mask_col (m : bitseq) (c : column) : column :=
  match c with
  | Int64 xs => Int64 (mask m xs)
  | Float64 xs => Float64 (mask m xs)
  | Object xs => Object (mask m xs)
  | Bool xs => Bool (mask m xs)
  | Datetime64 xs => Datetime64 (mask m xs)
  end.

Definition select (m : bitseq) (df : DataFrame) : DataFrame :=
  mkDataFrame (mask m (index df))
              [seq (nc.1, mask_col m nc.2) | nc <- columns df].

(** ** Untyped view of the cells, used to compare and inspect whole rows *)

Inductive cell : Type :=
| CInt (z : Z)
| CFloat (q : Q)
| CObj (o : pyobj)
| CBool (b : bool)
| CTime (t : Z)
| CNaN.

Definition cell_to_sum (c : cell) : Z + Q + pyobj + bool + Z + unit :=
  match c with
  | CInt z => inl (inl (inl (inl (inl z))))
  | CFloat q => inl (inl (inl (inl (inr q))))
  | CObj o => inl (inl (inl (inr o)))
  | CBool b => inl (inl (inr b))
  | CTime t => inl (inr t)
  | CNaN => inr tt
  end.
Definition sum_to_cell (x : Z + Q + pyobj + bool + Z + unit) : cell :=
  match x with
  | inl (inl (inl (inl (inl z)))) => CInt z
  | inl (inl (inl (inl (inr q)))) => CFloat q
  | inl (inl (inl (inr o))) => CObj o
  | inl (inl (inr b)) => CBool b
  | inl (inr t) => CTime t
  | inr _ => CNaN
  end.
Definition cell_sumK : cancel cell_to_sum sum_to_cell :=
  fun c => match c with
           | CInt _ | CFloat _ | CObj _ | CBool _ | CTime _ | CNaN => erefl
           end.
HB.instance Definition _ := Equality.copy cell (can_type cell_sumK).

Definition ocell {A} (f : A -> cell) (x : option A) : cell :=
  if x is Some a then f a else CNaN.

Definition cells (c : column) : seq cell :=
  match c with
  | Int64 xs => [seq CInt z | z <- xs]
  | Float64 xs => [seq ocell CFloat x | x <- xs]
  | Object xs => [seq ocell CObj x | x <- xs]
  | Bool xs => [seq CBool b | b <- xs]
  | Datetime64 xs => [seq ocell CTime x | x <- xs]
  end.

Definition isna (c : cell) : bool := if c is CNaN then true else false.

(** [df.isnull().sum()] for one column *)
Definition isnull_sum (c : column) : nat := count isna (cells c).

Definition pyobj_eqb (a b : pyobj) : bool :=
  match a, b with
  | PStr s, PStr t => String.eqb s t
  | PTimestamp s, PTimestamp t => Z.eqb s t
  | PBool s, PBool t => eqtype.eq_op s t
  | _, _ => false
  end.

(** Equality used by [duplicated]: two missing cells count as equal. *)
Definition cell_eqb (a b : cell) : bool :=
  match a, b with
  | CInt x, CInt y => Z.eqb x y
  | CFloat x, CFloat y => Qeq_bool x y
  | CObj x, CObj y => pyobj_eqb x y
  | CBool x, CBool y => eqtype.eq_op x y
  | CTime x, CTime y => Z.eqb x y
  | CNaN, CNaN => true
  | _, _ => false
  end.

Definition row : Type := seq cell.

Definition row_at (df : DataFrame) (i : nat) : row :=
  [seq nth CNaN (cells nc.2) i | nc <- columns df].

Definition rows (df : DataFrame) : seq row :=
  [seq row_at df i | i <- iota 0 (nrows df)].

Fixpoint row_eqb (r1 r2 : row) : bool :=
  match r1, r2 with
  | [::], [::] => true
  | a :: r1', b :: r2' => cell_eqb a b && row_eqb r1' r2'
  | _, _ => false
  end.

(** ** Statistics used by the fill strategies *)

Definition present {A} (xs : seq (option A)) : seq A := pmap id xs.

Definition fillna {A} (v : A) (xs : seq (option A)) : seq (option A) :=
  [seq if x is Some _ then x else Some v | x <- xs].

(** The infinities of float64, and the least magnitude that rounds to
    them: [2^1024 - 2^970], half a unit in the last place above the largest
    float. *)
Definition float_inf : Q := inject_Z (2 ^ 1024).
Definition float_overflow : Q := inject_Z (2 ^ 1024 - 2 ^ 970).

Definition is_pinf (q : Q) : bool := Qle_bool float_overflow q.
Definition is_ninf (q : Q) : bool := Qle_bool q (- float_overflow).

(** Float addition: [inf + -inf] is NaN ([None]), a finite sum that is too
    large overflows. *)
Definition float_add (a b : Q) : option Q :=
  if is_pinf a then (if is_ninf b then None else Some float_inf)
  else if is_ninf a then (if is_pinf b then None else Some (- float_inf)%Q)
  else if is_pinf b then Some float_inf
  else if is_ninf b then Some (- float_inf)%Q
  else let s := (a + b)%Q in
       if is_pinf s then Some float_inf
       else if is_ninf s then Some (- float_inf)%Q
       else Some s.

Definition float_half (q : Q) : Q :=
  if is_pinf q || is_ninf q then q else (q / 2)%Q.

(** The mean of two values as numpy computes it: their sum, then halved. *)
Definition float_mean (a b : Q) : option Q := omap float_half (float_add a b).

(** [Series.median()]: missing values are skipped; the middle of the sorted
    values, or the mean of the two middle ones; NaN on an empty series. *)
Definition median (xs : seq Q) : option Q :=
  let s := sort Qle_bool xs in
  let n := size s in
  if n == 0 then None
  else if odd n then Some (nth 0%Q s n./2)
  else omap Qred (float_mean (nth 0%Q s n./2.-1) (nth 0%Q s n./2)).

Section Mode.

Variable T : Type.
Variables eqb leb : T -> T -> bool.

Definition occurrences (x : T) (s : seq T) : nat := count (eqb x) s.

Definition max_occ (s : seq T) : nat :=
  foldr maxn 0 [seq occurrences x s | x <- s].

(** The distinct values, in order of first appearance. *)
Fixpoint uniques (s : seq T) : seq T :=
  if s is x :: s' then x :: [seq y <- uniques s' | ~~ eqb x y] else [::].

(** The most frequent values, before sorting. *)
Definition modes (s : seq T) : seq T :=
  [seq x <- uniques s | occurrences x s == max_occ s].

(** [Series.mode()]: the most frequent values, in ascending order. *)
Definition mode (s : seq T) : seq T := sort leb (modes s).

End Mode.

(** [s.mode()[0]]: label 0 of the mode; KeyError when the mode is empty. *)
Definition first_mode {T} (m : seq T) : result T :=
  if m is x :: _ then Ok x else Raise ModeKeyError.

Definition same_kind (a b : pyobj) : bool :=
  match a, b with
  | PStr _, PStr _ => true
  | PTimestamp _, PTimestamp _ => true
  | PBool _, PBool _ => true
  | _, _ => false
  end.

Definition homogeneous (s : seq pyobj) : bool :=
  if s is a :: s' then all (same_kind a) s' else true.

Definition bool_leb (a b : bool) : bool := a ==> b.

(** Order between objects.  Only objects of one kind are ever compared
    (see [mode_object]); the kinds are ranked bool, Timestamp, str to make
    the order total. *)
Definition pyobj_leb (a b : pyobj) : bool :=
  match a, b with
  | PStr s, PStr t => String.leb s t
  | PTimestamp s, PTimestamp t => Z.leb s t
  | PBool s, PBool t => bool_leb s t
  | PBool _, _ => true
  | _, PBool _ => false
  | PTimestamp _, PStr _ => true
  | PStr _, PTimestamp _ => false
  end.

(** [mode] of an object column.  When the kinds are mixed the sort fails
    inside pandas, which then keeps the most frequent values unsorted. *)
Definition mode_object (s : seq pyobj) : seq pyobj :=
  if homogeneous s then mode pyobj_eqb pyobj_leb s else modes pyobj_eqb s.

(** ** Missing-value strategies (lines 55-68) *)

Inductive missing_option : Type :=
| DropRows             (* "Drop rows" *)
| FillMeanMedianMode   (* "Fill with mean/median/mode" *)
| FillConstant.        (* "Fill with constant (e.g., 0)" *)

(** [df.dropna()]: keep the rows without any missing cell. *)
Definition dropna (df : DataFrame) : DataFrame :=
  select [seq ~~ has isna r | r <- rows df] df.

Definition missing {A} (x : option A) : bool := ~~ isSome x.

Definition is_pybool (x : option pyobj) : bool :=
  if x is Some (PBool _) then true else false.

(** When [fillna] has filled an object column, pandas infers its dtype
    again: a column left with nothing but Python bools becomes a bool
    column; text, and datetimes whose offsets differ, stay as objects. *)
Definition downcast_object (xs : seq (option pyobj)) : column :=
  if all is_pybool xs
  then Bool [seq if x is Some (PBool b) then b else false | x <- xs]
  else Object xs.

(** Lines 59-62 for one column.  The test [dtype in ["int64", "float64"]]
    sends int64 and float64 to the median, everything else to the mode.
    A [fillna] that finds nothing to fill leaves the column as it is. *)
Definition fill_central (c : column) : result column :=
  match c with
  | Int64 xs => Ok (Int64 xs)
  | Float64 xs =>
      Ok (Float64 (if median (present xs) is Some m then fillna m xs else xs))
  | Object xs =>
      m <-- first_mode (mode_object (present xs)) ;;
      Ok (if has missing xs then downcast_object (fillna m xs) else Object xs)
  | Bool xs =>
      _ <-- first_mode (mode eqtype.eq_op bool_leb xs) ;; Ok (Bool xs)
  | Datetime64 xs =>
      m <-- first_mode (mode Z.eqb Z.leb (present xs)) ;;
      Ok (Datetime64 (fillna m xs))
  end.

Definition unknown : string := "Unknown".

(** Lines 65-68 for one column.  Filling NaT with a str turns the datetime
    column into an object column; without NaT the column is left alone. *)
Definition fill_constant (c : column) : column :=
  match c with
  | Int64 xs => Int64 xs
  | Float64 xs => Float64 (fillna 0%Q xs)
  | Object xs => Object (fillna (PStr unknown) xs)
  | Bool xs => Bool xs
  | Datetime64 xs =>
      if has missing xs
      then Object [seq Some (if x is Some t then PTimestamp t else PStr unknown)
                  | x <- xs]
      else Datetime64 xs
  end.

(** The loop [for col in df.columns]: each iteration reads and writes only
    its own column. *)
Definition handle_missing (opt : missing_option) (df : DataFrame)
  : result DataFrame :=
  match opt with
  | DropRows => Ok (dropna df)
  | FillMeanMedianMode =>
      cs <-- mapM (fun nc => c <-- fill_central nc.2 ;; Ok (nc.1, c))
                 (columns df) ;;
      Ok (mkDataFrame (index df) cs)
  | FillConstant =>
      Ok (mkDataFrame (index df)
                      [seq (nc.1, fill_constant nc.2) | nc <- columns df])
  end.

(** ** Duplicates (line 40) *)

(** [df.duplicated()]: a row is a duplicate when an earlier row equals it. *)
Fixpoint duplicated_from (seen : seq row) (rs : seq row) : bitseq :=
  if rs is r :: rs' then
    has (row_eqb r) seen :: duplicated_from (rcons seen r) rs'
  else [::].

Definition duplicated (df : DataFrame) : bitseq :=
  duplicated_from [::] (rows df).

Definition drop_duplicates (df : DataFrame) : DataFrame :=
  select [seq ~~ b | b <- duplicated df] df.

(** ** Comparisons of a column with 0 (lines 74-75) *)

Definition bool_number (b : bool) : Q := if b then 1%Q else 0%Q.

(** The objects that do not order against an int: str and Timestamp. *)
Definition unorderable (x : option pyobj) : bool :=
  isSome x && ~~ is_pybool x.

Definition object_number (o : pyobj) : option Q :=
  if o is PBool b then Some (bool_number b) else None.

(** The numbers a column holds when it can be ordered against an int.
    In an object column NaN compares false without raising and a Python
    bool counts as 0 or 1; a str or a Timestamp raises TypeError, and so
    does a datetime column. *)
Definition numeric_view (c : column) : result (seq (option Q)) :=
  match c with
  | Int64 xs => Ok [seq Some (inject_Z z) | z <- xs]
  | Float64 xs => Ok xs
  | Bool xs => Ok [seq Some (bool_number b) | b <- xs]
  | Object xs => if has unorderable xs then Raise TypeError
                 else Ok [seq obind object_number x | x <- xs]
  | Datetime64 _ => Raise TypeError
  end.

(** A comparison with NaN is false. *)
Definition compare0 (op : Q -> bool) (c : column) : result bitseq :=
  v <-- numeric_view c ;; Ok [seq if x is Some q then op q else false | x <- v].

Definition lt0 (q : Q) : bool := ~~ Qle_bool 0%Q q.
Definition le0 (q : Q) : bool := Qle_bool q 0%Q.
Definition ge0 (q : Q) : bool := Qle_bool 0%Q q.
Definition gt0 (q : Q) : bool := ~~ Qle_bool q 0%Q.

(** Element-wise [|] and [&] of two boolean series. *)
Definition series_or (a b : bitseq) : bitseq :=
  [seq ab.1 || ab.2 | ab <- zip a b].
Definition series_and (a b : bitseq) : bitseq :=
  [seq ab.1 && ab.2 | ab <- zip a b].

(** Lines 74-75: the count that is reported, and the frame that is kept. *)
Definition remove_invalid (df : DataFrame) : result (nat * DataFrame) :=
  price <-- getitem df "price" ;;
  price_lt <-- compare0 lt0 price ;;
  quantity <-- getitem df "quantity" ;;
  quantity_le <-- compare0 le0 quantity ;;
  let invalid_rows := count id (series_or price_lt quantity_le) in
  price_ge <-- compare0 ge0 price ;;
  quantity_gt <-- compare0 gt0 quantity ;;
  Ok (invalid_rows, select (series_and price_ge quantity_gt) df).

(** ** Column lists (lines 84-86) *)

Definition id_cols : seq string := [:: "order_id"; "customer_id"; "product_id"].

Definition is_number (c : column) : bool :=
  match c with
  | Int64 _ | Float64 _ => true
  | _ => false
  end.

Definition is_object (c : column) : bool :=
  if c is Object _ then true else false.

(** [df.select_dtypes(include=...).columns] *)
Definition select_dtypes (p : column -> bool) (df : DataFrame) : seq string :=
  [seq nc.1 | nc <- columns df & p nc.2].

Definition numeric_cols (df : DataFrame) : seq string :=
  [seq col <- select_dtypes is_number df | col \notin id_cols].

Definition categorical_cols (df : DataFrame) : seq string :=
  select_dtypes is_object df.

(** ** Daily open/high/low/close (lines 140-147) *)

Definition ns_per_day : Z := 86400000000000.

(** [.dt.date]: the calendar day of a timestamp, as a day number. *)
Definition dt_date (c : column) : result (seq (option Z)) :=
  if c is Datetime64 ts
  then Ok [seq omap (fun t => Z.div t ns_per_day) x | x <- ts]
  else Raise AttributeError.

Definition Qmaxb (a b : Q) : Q := if Qle_bool a b then b else a.
Definition Qminb (a b : Q) : Q := if Qle_bool a b then a else b.

Definition reduce (f : Q -> Q -> Q) (s : seq Q) : option Q :=
  if s is x :: s' then Some (foldl f x s') else None.

Record ohlc : Type := mkOhlc {
  open : option Q;
  high : option Q;
  low : option Q;
  close : option Q
}.

Definition ohlc_to_tuple (o : ohlc) :=
  (open o, high o, low o, close o).
Definition tuple_to_ohlc (t : option Q * option Q * option Q * option Q) :=
  let: (o, h, l, c) := t in mkOhlc o h l c.
Definition ohlc_tupleK : cancel ohlc_to_tuple tuple_to_ohlc :=
  fun o => match o with mkOhlc _ _ _ _ => erefl end.
HB.instance Definition _ := Equality.copy ohlc (can_type ohlc_tupleK).

(** The group of one key: the values of the rows carrying that key, in row
    order. *)
Definition group (d : Z) (keys : seq (option Z)) (v : seq (option Q))
  : seq (option Q) :=
  mask [seq k == Some d | k <- keys] v.

(** ['first'] and ['last'] are the first and last non-missing value of the
    group; ['max'] and ['min'] skip missing values. *)
Definition agg (g : seq (option Q)) : ohlc :=
  let p := present g in
  mkOhlc (ohead p) (reduce Qmaxb p) (reduce Qminb p)
         (if p is x :: p' then Some (last x p') else None).

(** [groupby('date')]: one group per distinct day, missing days dropped,
    groups in ascending order of the key. *)
Definition groupby_agg (keys : seq (option Z)) (v : seq (option Q))
  : seq (Z * ohlc) :=
  [seq (d, agg (group d keys v)) | d <- sort Z.leb (undup (present keys))].

(** The candlestick tab.  [None] stands for the warning branch of line 169.
    The price column reaching this point has been compared with 0 by
    [remove_invalid], so it has a [numeric_view]. *)
Definition daily (df : DataFrame) : result (option (seq (Z * ohlc))) :=
  if ("order_date" \in column_names df) && ("price" \in column_names df) then
    order_date <-- getitem df "order_date" ;;
    date <-- dt_date order_date ;;
    price <-- getitem df "price" ;;
    v <-- numeric_view price ;;
    Ok (Some (groupby_agg date v))
  else Ok None.

(** ** The univariate and bivariate tabs (lines 91-97 and 124) *)

(** [df[col].nunique()]: the number of distinct values, missing ones left
    out. *)
Definition nunique (c : column) : nat :=
  size (uniques cell_eqb [seq x <- cells c | ~~ isna x]).

Inductive plot : Type := CountPlot | HistPlot.

(** Lines 94-97: a count plot below 10 distinct values, else a histogram. *)
Definition univariate_plot (c : column) : plot :=
  if nunique c < 10 then CountPlot else HistPlot.

(** The column picked in the select box of line 92 is one of [numeric_cols];
    [None] stands for the warning of line 104. *)
Definition univariate (df : DataFrame) (col : string) : result (option plot) :=
  if numeric_cols df is [::] then Ok None
  else c <-- getitem df col ;; Ok (Some (univariate_plot c)).

(** Line 124: the box plot is drawn when both columns are there. *)
Definition bivariate_shown (df : DataFrame) : bool :=
  ("category" \in column_names df) && ("price" \in column_names df).

(** ** The cleaning stage *)

Record cleaning : Type := mkCleaning {
  removed_duplicates : nat;            (* before_dupes - after_dupes *)
  missing_before : seq (string * nat); (* df.isnull().sum() *)
  missing_after : seq (string * nat);
  invalid_rows : nat;
  cleaned : DataFrame
}.

Definition isnull_sums (df : DataFrame) : seq (string * nat) :=
  [seq (nc.1, isnull_sum nc.2) | nc <- columns df].

Section Pipeline.

(** The two scalar conversions of [pd.to_datetime]; [None] is a value that
    does not convert, which [errors='coerce'] turns into NaT.  pandas may
    guess one format from the whole series and read every string with it,
    so the string parser is given the series as well.  [mixed_offsets]
    tells the series whose strings carry different UTC offsets: for these
    pandas 2 gives back an object column of datetimes. *)
Variable parse_datetime : seq (option pyobj) -> string -> option Z.
Variable mixed_offsets : seq (option pyobj) -> bool.
Variable epoch_datetime : Q -> option Z.

Definition object_datetime (series : seq (option pyobj)) (o : pyobj)
  : option Z :=
  match o with
  | PStr s => parse_datetime series s
  | PTimestamp t => Some t
  | PBool _ => None
  end.

(** [pd.to_datetime(series, errors='coerce')]: never raises; a boolean
    value comes back as NaT. *)
Definition to_datetime (c : column) : column :=
  match c with
  | Int64 xs => Datetime64 [seq epoch_datetime (inject_Z z) | z <- xs]
  | Float64 xs => Datetime64 [seq obind epoch_datetime x | x <- xs]
  | Object xs =>
      let ts := [seq obind (object_datetime xs) x | x <- xs] in
      if mixed_offsets xs then Object [seq omap PTimestamp t | t <- ts]
      else Datetime64 ts
  | Bool xs => Datetime64 [seq None | _ <- xs]
  | Datetime64 xs => Datetime64 xs
  end.

(** Line 21 *)
Definition parse_order_date (df : DataFrame) : result DataFrame :=
  order_date <-- getitem df "order_date" ;;
  Ok (setitem df "order_date" (to_datetime order_date)).

(** Lines 21-76, from the frame returned by [read_csv]. *)
Definition clean (opt : missing_option) (df0 : DataFrame) : result cleaning :=
  df1 <-- parse_order_date df0 ;;
  let before_dupes := nrows df1 in
  let df2 := drop_duplicates df1 in
  let after_dupes := nrows df2 in
  df3 <-- handle_missing opt df2 ;;
  r <-- remove_invalid df3 ;;
  Ok (mkCleaning (before_dupes - after_dupes) (isnull_sums df2)
                 (isnull_sums df3) r.1 r.2).

End Pipeline.

(** ** A sample upload *)

(** A small parser standing for pandas' own: it reads the first nine days
    of January 2024, written ["2024-01-0<n>"], and nothing else.
    2024-01-01 is day 19723 of the epoch. *)
Definition sample_parse (_ : seq (option pyobj)) (s : string) : option Z :=
  if (String.substring 0 9 s == "2024-01-0") && (String.length s == 10) then
    if String.get 9 s is Some c then
      let n := Z.of_N (N_of_ascii c) in
      if Z.leb 49 n && Z.leb n 57
      then Some (Z.mul (Z.add 19722 (Z.sub n 48)) ns_per_day)
      else None
    else None
  else None.

Definition sample_mixed (_ : seq (option pyobj)) : bool := false.

Definition sample_epoch (q : Q) : option Z :=
  Some (Z.div (Qnum q) (Zpos (Qden q))).

Definition str (s : string) : option pyobj := Some (PStr s).

Definition sample : DataFrame :=
  mkDataFrame (iota 0 6)
    [:: ("order_id", Int64 [:: 1; 2; 3; 3; 5; 6]%Z);
        ("order_date", Object [:: str "2024-01-01"; str "2024-01-01";
                                  str "2024-01-02"; str "2024-01-02";
                                  str "oops"; str "2024-01-01"]);
        ("price", Float64 [:: Some 10; None; Some 8; Some 8; Some 3;
                              Some (-4)%Q]%Q);
        ("quantity", Float64 [:: Some 1; Some 2; None; None; Some 1;
                                 Some 2]%Q);
        ("category", Object [:: str "a"; None; str "b"; str "b"; str "a";
                                str "b"])].

Definition sample_clean (opt : missing_option) : result cleaning :=
  clean sample_parse sample_mixed sample_epoch opt sample.

(** One order whose quantity is blank: [read_csv] types the column float64. *)
Definition blank_quantity : DataFrame :=
  mkDataFrame (iota 0 1)
    [:: ("order_id", Int64 [:: 1%Z]);
        ("order_date", Object [:: str "2024-01-01"]);
        ("price", Float64 [:: Some 5%Q]);
        ("quantity", Float64 [:: None])].

(** Two orders whose date is blank: [read_csv] types the column float64 and
    the coercion of line 21 makes it NaT throughout. *)
Definition blank_dates : DataFrame :=
  mkDataFrame (iota 0 2)
    [:: ("order_id", Int64 [:: 1%Z; 2%Z]);
        ("order_date", Float64 [:: None; None]);
        ("price", Float64 [:: Some 5%Q; Some 7%Q]);
        ("quantity", Int64 [:: 2%Z; 1%Z])].

(** Uploads that lack one of the expected columns. *)
Definition no_order_date : DataFrame :=
  mkDataFrame (iota 0 1)
    [:: ("order_id", Int64 [:: 1%Z]);
        ("price", Float64 [:: Some 5%Q]);
        ("quantity", Int64 [:: 2%Z])].

Definition no_price : DataFrame :=
  mkDataFrame (iota 0 1)
    [:: ("order_id", Int64 [:: 1%Z]);
        ("order_date", Object [:: str "2024-01-01"]);
        ("quantity", Int64 [:: 2%Z])].

Definition no_quantity : DataFrame :=
  mkDataFrame (iota 0 1)
    [:: ("order_id", Int64 [:: 1%Z]);
        ("order_date", Object [:: str "2024-01-01"]);
        ("price", Float64 [:: Some 5%Q])].

(** Order identifiers written as text. *)
Definition text_ids : DataFrame :=
  mkDataFrame (iota 0 2)
    [:: ("order_id", Object [:: str "A-1"; str "A-2"]);
        ("order_date", Object [:: str "2024-01-01"; str "2024-01-02"]);
        ("price", Float64 [:: Some 5%Q; Some 7%Q]);
        ("quantity", Int64 [:: 2%Z; 1%Z]);
        ("category", Object [:: str "a"; str "b"])].

Definition ns_per_hour : Z := 3600000000000.

(** Two orders dated with different UTC offsets, and the part of
    [pd.to_datetime] that reads them: the instants, and the fact that the
    offsets differ. *)
Definition offset_dates : DataFrame :=
  mkDataFrame (iota 0 2)
    [:: ("order_id", Int64 [:: 1%Z; 2%Z]);
        ("order_date", Object [:: str "2024-01-01 10:00+01:00";
                                  str "2024-01-02 10:00+02:00"]);
        ("price", Float64 [:: Some 5%Q; Some 7%Q]);
        ("quantity", Int64 [:: 2%Z; 1%Z])].

Definition offset_parse (_ : seq (option pyobj)) (s : string) : option Z :=
  if s == "2024-01-01 10:00+01:00"
  then Some (Z.add (Z.mul 19723 ns_per_day) (Z.mul 9 ns_per_hour))
  else if s == "2024-01-02 10:00+02:00"
  then Some (Z.add (Z.mul 19724 ns_per_day) (Z.mul 8 ns_per_hour))
  else None.

Definition offset_mixed (xs : seq (option pyobj)) : bool :=
  (str "2024-01-01 10:00+01:00" \in xs) && (str "2024-01-02 10:00+02:00" \in xs).

(** Four orders of 2024-01-01, at 09:00, 11:00, 13:00 and 17:00. *)

Definition same_day : DataFrame :=
  mkDataFrame (iota 0 4)
    [:: ("order_date",
         Datetime64 [seq Some (Z.add (Z.mul 19723 ns_per_day) (Z.mul h ns_per_hour))
                    | h <- [:: 9; 11; 13; 17]%Z]);
        ("price", Float64 [:: Some 10; Some 15; Some 8; Some 12]%Q)].



(** A float column holding both infinities and a blank. *)
Definition both_infinities : DataFrame :=
  mkDataFrame (iota 0 3)
    [:: ("order_id", Int64 [:: 1; 2; 3]%Z);
        ("price", Float64 [:: Some (- float_inf)%Q; Some float_inf; None]);
        ("quantity", Int64 [:: 1; 1; 1]%Z)].

Definition sample_parsed : DataFrame :=
  Eval vm_compute in
    if parse_order_date sample_parse sample_mixed sample_epoch sample is Ok df then df
    else sample.

Definition empty_cleaning : cleaning := mkCleaning 0 [::] [::] 0 sample.

Definition sample_constant : cleaning :=
  Eval vm_compute in
    if sample_clean FillConstant is Ok r then r else empty_cleaning.

Definition sample_central : cleaning :=
  Eval vm_compute in
    if sample_clean FillMeanMedianMode is Ok r then r else empty_cleaning.

Definition sample_daily : seq (Z * ohlc) :=
  Eval vm_compute in
    if daily (cleaned sample_central) is Ok (Some out) then out else [::].

Definition sample_dedup : DataFrame := drop_duplicates sample_parsed.

Definition sample_filled : DataFrame :=
  Eval vm_compute in
    if handle_missing FillMeanMedianMode sample_dedup is Ok df then df
    else sample.

(** Prices written with a currency sign: the column is read as text. *)
Definition text_price : DataFrame :=
  mkDataFrame (iota 0 2)
    [:: ("order_id", Int64 [:: 1%Z; 2%Z]);
        ("order_date", Object [:: str "2024-01-01"; str "2024-01-02"]);
        ("price", Object [:: str "$5"; str "$7"]);
        ("quantity", Int64 [:: 2%Z; 1%Z])].

Definition sample_drop : cleaning :=
  Eval vm_compute in
    if sample_clean DropRows is Ok r then r else empty_cleaning.

Definition sample_timestamps : seq (option Z) :=
  Eval vm_compute in
    if lookup "order_date" (columns sample_parsed) is Some (Datetime64 ts)
    then ts else [::].

Definition sample_dates : column :=
  Eval vm_compute in
    if lookup "order_date" (columns sample_dedup) is Some c then c
    else Int64 [::].

(** ** Observations used in the statements *)

(** The number a cell holds; a boolean counts as 0 or 1, as in Python. *)
Definition cell_number (c : cell) : option Q :=
  match c with
  | CInt z => Some (inject_Z z)
  | CFloat q => Some q
  | CBool b | CObj (PBool b) => Some (bool_number b)
  | _ => None
  end.

(** The cell of column [name] in the row at position [i]. *)
Definition cell_at (df : DataFrame) (name : string) (i : nat) : cell :=
  if lookup name (columns df) is Some c then nth CNaN (cells c) i else CNaN.

Definition nonnegative (c : cell) : Prop :=
  exists2 q, cell_number c = Some q & (0 <= q)%Q.

Definition positive_number (c : cell) : Prop :=
  exists2 q, cell_number c = Some q & (0 < q)%Q.

(** A most frequent value of a series, and the first of them in the order
    [leb] (the head of the sorted [mode]). *)
Definition most_frequent (T : eqType) (m : T) (s : seq T) : Prop :=
  m \in s /\ forall y, count_mem y s <= count_mem m s.

Definition first_most_frequent (T : eqType) (leb : rel T) (m : T) (s : seq T)
  : Prop :=
  most_frequent m s /\ forall y, most_frequent y s -> leb m y.

(** [a] is the lower middle value of [s]: at least half of the values are
    [<= a] and more than half are [>= a]; [b] is the upper middle value,
    symmetrically.  With an odd number of values both are the middle one. *)
Definition lower_middle (a : Q) (s : seq Q) : Prop :=
  [/\ a \in s, size s <= (count (fun x => Qle_bool x a) s).*2
    & size s < (count (fun x => Qle_bool a x) s).*2].

Definition upper_middle (b : Q) (s : seq Q) : Prop :=
  [/\ b \in s, size s < (count (fun x => Qle_bool x b) s).*2
    & size s <= (count (fun x => Qle_bool b x) s).*2].




(** The value of a cell, whether it sits in a typed column or is boxed in
    an object column. *)
Definition unbox (c : cell) : cell :=
  match c with
  | CObj (PBool b) => CBool b
  | CObj (PTimestamp t) => CTime t
  | _ => c
  end.

Definition values (c : column) : seq cell := [seq unbox x | x <- cells c].

Definition same_value (a b : cell) : bool := cell_eqb (unbox a) (unbox b).



(** A float column whose two middle values are the two infinities, and a
    float column holding both infinities. *)
Definition infinite_middles (c : column) : Prop :=
  if c is Float64 xs then
    exists a b, [/\ lower_middle a (present xs), upper_middle b (present xs),
                    is_ninf a & is_pinf b]
  else False.

Definition opposite_infinities (c : column) : bool :=
  if c is Float64 xs then has is_ninf (present xs) && has is_pinf (present xs)
  else false.

(** A column without a missing cell, and a column made of missing cells. *)
Definition no_missing (c : column) : bool := isnull_sum c == 0.
Definition all_missing (c : column) : bool := all isna (cells c).

(** A column with at least one value that is not missing. *)
Definition has_value (c : column) : bool := has (predC isna) (cells c).

(** The columns that order against an int: int64, float64 and bool. *)
Definition comparable (c : column) : bool :=
  match c with
  | Int64 _ | Float64 _ | Bool _ => true
  | _ => false
  end.

(** A Python bool boxed in an object column. *)
Definition boxed_bool (c : cell) : bool :=
  if c is CObj (PBool _) then true else false.

(** A cell of text, or a missing one; an object column of text. *)
Definition is_text (x : option pyobj) : bool :=
  if x is Some o then (if o is PStr _ then true else false) else true.

Definition text_column (c : column) : bool :=
  if c is Object xs then all is_text xs else false.

(** The prices of the rows dated [d], in row order. *)
Definition day_prices (d : Z) (dates : seq (option Z)) (prices : seq Q)
  : seq Q :=
  [seq dp.2 | dp <- zip dates prices & dp.1 == Some d].

(** The timestamps of calendar day [d]: from midnight of day [d] up to,
    not including, the next midnight. *)
Definition on_day (d : Z) (x : option Z) : bool :=
  if x is Some t
  then Z.leb (Z.mul d ns_per_day) t && Z.ltb t (Z.mul (Z.add d 1) ns_per_day)
  else false.

(** The prices of the rows whose timestamp falls on day [d], in row order. *)
Definition prices_on (d : Z) (ts : seq (option Z)) (prices : seq Q) : seq Q :=
  [seq tp.2 | tp <- zip ts prices & on_day d tp.1].

(** [h] is the largest, resp. [l] the smallest, price of [g]. *)
Definition is_max (h : Q) (g : seq Q) : Prop :=
  h \in g /\ forall p, p \in g -> (p <= h)%Q.
Definition is_min (l : Q) (g : seq Q) : Prop :=
  l \in g /\ forall p, p \in g -> (l <= p)%Q.

(** "No missing value remains after missing-value handling", for one
    strategy and one table. *)
Definition no_missing_after (opt : missing_option) (df : DataFrame) : Prop :=
  forall df', handle_missing opt df = Ok df' ->
    all (fun nc => no_missing nc.2) (columns df').

(** The dtype of column [name]. *)
Definition dtype_of_column (df : DataFrame) (name : string) : option dtype :=
  omap dtype_of (lookup name (columns df)).

(** The label of the row at position [i]. *)
Definition label_at (df : DataFrame) (i : nat) : nat := nth 0 (index df) i.

(** Every row of [B] is a row of [A]: it carries the label of a row of [A]
    and, in every column where that row of [A] holds a value, the same
    value. *)
Definition carried (A B : DataFrame) : Prop :=
  forall j, j < nrows B ->
    let i := seq.index (label_at B j) (index A) in
    i < nrows A /\
    forall name, ~~ isna (cell_at A name i) ->
      same_value (cell_at B name j) (cell_at A name i).

(** * Properties *)

(** ** Results *)

Lemma bind_ok A B (r : result A) (k : A -> result B) (b : B) :
  bind r k = Ok b -> exists2 a, r = Ok a & k a = Ok b.
Proof. by case: r => [a|e] //= kab; exists a. Qed.

Arguments bind_ok {A B r k b} _.

(** ** Columns by name *)

Lemma lookup_map (f : column -> column) name cs :
  lookup name [seq (nc.1, f nc.2) | nc <- cs] = omap f (lookup name cs).
Proof. by elim: cs => [|[n c] cs IH] //=; case: String.eqb. Qed.

Lemma lookup_mapM (f : column -> result column) name cs cs' :
  mapM (fun nc => c <-- f nc.2 ;; Ok (nc.1, c)) cs = Ok cs' ->
  match lookup name cs with
  | Some c => exists2 c', f c = Ok c' & lookup name cs' = Some c'
  | None => lookup name cs' = None
  end.
Proof.
elim: cs cs' => [|[n c] cs IH] cs' /=; first by case=> <-.
move=> /bind_ok [[n' c']] /= /bind_ok [c1 fc [<- <-]] /= /bind_ok [bs /IH {}IH] /= [<-] /=.
by case: String.eqb => //; exists c1.
Qed.

Lemma lookup_assign name c cs n :
  lookup n (assign name c cs) =
  if String.eqb n name then Some c else lookup n cs.
Proof.
elim: cs => [|[n0 c0] cs IH] /=; first by rewrite String.eqb_sym.
case E0: (String.eqb n0 name) => /=.
  move/String.eqb_spec: E0 => ->.
  by rewrite [String.eqb n name]String.eqb_sym; case: String.eqb.
case E1: (String.eqb n0 n) => //.
by move/String.eqb_spec: E1 => <-; rewrite E0.
Qed.

Lemma lookup_in name cs c : lookup name cs = Some c -> (name, c) \in cs.
Proof.
elim: cs => [|[n c0] cs IH] //=; rewrite in_cons.
case E: (String.eqb n name); last by move=> /IH ->; rewrite orbT.
by case=> <-; move/String.eqb_spec: E => ->; rewrite eqxx.
Qed.

(** ** Masks *)

Lemma size_mask_same A B (m : bitseq) (s : seq A) (t : seq B) :
  size s = size t -> size (mask m s) = size (mask m t).
Proof.
elim: m s t => [|b m IH] [|x s] [|y t] //= [] /IH E.
by case: b => /=; rewrite E.
Qed.

Lemma cells_mask m c : cells (mask_col m c) = mask m (cells c).
Proof. by case: c => xs /=; rewrite map_mask. Qed.

Lemma col_size_cells c : col_size c = size (cells c).
Proof. by case: c => xs /=; rewrite size_map. Qed.

Lemma all_mask_nth A (p : pred A) x0 (m : bitseq) (s : seq A) :
  (forall i, i < size s -> nth false m i -> p (nth x0 s i)) ->
  all p (mask m s).
Proof.
elim: m s => [|b m IH] [|x s] //= H.
have Hs : all p (mask m s) by apply: IH => i Hi; exact: (H i.+1).
by case: b H => //= H; rewrite Hs (H 0).
Qed.

(** ** Well-formed frames stay well-formed *)

Lemma wf_select m df : wf df -> wf (select m df).
Proof.
case/andP=> Hu /allP Hc; apply/andP; split; first exact: mask_uniq.
apply/allP => nc /mapP [[n c] /Hc /= /eqP E ->] /=.
by rewrite /nrows /= col_size_cells cells_mask
           (@size_mask_same _ _ m (cells c) (index df)) // -col_size_cells.
Qed.

Lemma wf_columns (f : column -> column) df :
  (forall c, col_size (f c) = col_size c) ->
  wf df -> wf (mkDataFrame (index df) [seq (nc.1, f nc.2) | nc <- columns df]).
Proof.
move=> Hf /andP [Hu /allP Hc]; apply/andP; split=> //.
by apply/allP => nc /mapP [[n c] /Hc /= E ->] /=; rewrite Hf.
Qed.

Lemma size_fillna A (v : A) xs : size (fillna v xs) = size xs.
Proof. by rewrite size_map. Qed.

Lemma downcast_object_size xs : col_size (downcast_object xs) = size xs.
Proof. by rewrite /downcast_object; case: ifP => _ /=; rewrite ?size_map. Qed.

Lemma fill_constant_size c : col_size (fill_constant c) = col_size c.
Proof.
case: c => xs //=; rewrite ?size_fillna //.
by case: ifP => _ /=; rewrite ?size_map.
Qed.

Lemma fill_central_size c c' : fill_central c = Ok c' -> col_size c' = col_size c.
Proof.
case: c => xs /=.
- by case=> <-.
- by case=> <-; case: median => [m|] //=; rewrite size_fillna.
- move=> /bind_ok [m _] /= [<-]; case: ifP => // _.
  by rewrite downcast_object_size size_fillna.
- by move=> /bind_ok [m _] /= [<-].
- by move=> /bind_ok [m _] /= [<-] /=; rewrite size_fillna.
Qed.

Lemma wf_mapM (f : column -> result column) df cs :
  (forall c c', f c = Ok c' -> col_size c' = col_size c) ->
  mapM (fun nc => c <-- f nc.2 ;; Ok (nc.1, c)) (columns df) = Ok cs ->
  wf df -> wf (mkDataFrame (index df) cs).
Proof.
move=> Hf Hm /andP [Hu Hc]; apply/andP; split=> //=.
rewrite /nrows /=; move: Hc; rewrite /nrows.
elim: (columns df) cs Hm => [|[n c] s IH] cs /=; first by case=> <-.
move=> /bind_ok [[n' c']] /= /bind_ok [c1 /Hf E [_ <-]] /= /bind_ok [bs /IH {}IH] /= [<-].
by case/andP=> /= Hc /IH ->; rewrite E Hc.
Qed.

Lemma wf_handle_missing opt df df' :
  handle_missing opt df = Ok df' -> wf df -> wf df'.
Proof.
case: opt => /=.
- by case=> <-; exact: wf_select.
- move=> /bind_ok [cs Hm] /= [<-]; exact: (wf_mapM fill_central_size Hm).
- by case=> <-; apply: wf_columns; exact: fill_constant_size.
Qed.

Lemma wf_remove_invalid df r : remove_invalid df = Ok r -> wf df -> wf r.2.
Proof.
rewrite /remove_invalid.
move=> /bind_ok [p _] /= /bind_ok [a _] /= /bind_ok [q _] /= /bind_ok [b _].
by move=> /bind_ok [c _] /= /bind_ok [d _] /= [<-] /=; exact: wf_select.
Qed.

(** ** Row labels through the pipeline *)

Section PipelineFacts.

Variable parse : seq (option pyobj) -> string -> option Z.
Variable mixed : seq (option pyobj) -> bool.
Variable epoch : Q -> option Z.

Lemma to_datetime_size c : col_size (to_datetime parse mixed epoch c) = col_size c.
Proof. by case: c => xs /=; rewrite ?size_map //; case: ifP; rewrite /= !size_map. Qed.

Lemma index_parse_order_date df df' :
  parse_order_date parse mixed epoch df = Ok df' -> index df' = index df.
Proof. by move=> /bind_ok [c _] /= [<-]. Qed.

Lemma wf_assign name c df :
  col_size c = nrows df -> wf df -> wf (setitem df name c).
Proof.
move=> Hc /andP [Hu Ha]; apply/andP; split=> //=.
rewrite /nrows /=; elim: (columns df) Ha => [|[n c0] cs IH] /=.
  by rewrite Hc eqxx.
by case/andP=> H0 Hcs; case: String.eqb => /=; rewrite ?Hc ?eqxx ?H0 ?Hcs ?IH.
Qed.

Lemma wf_parse_order_date df df' :
  parse_order_date parse mixed epoch df = Ok df' -> wf df -> wf df'.
Proof.
move=> /bind_ok [c Hc] /= [<-] Hwf; apply: wf_assign => //.
rewrite to_datetime_size; move: Hc; rewrite /getitem.
case E: lookup => [c0|] // [<-].
case/andP: Hwf => _ /allP /(_ ("order_date", c0)) /= H.
by apply/eqP/H/lookup_in.
Qed.

Lemma lookup_parse_order_date df df' name :
  parse_order_date parse mixed epoch df = Ok df' -> name != "order_date" ->
  lookup name (columns df') = lookup name (columns df).
Proof.
move=> /bind_ok [od _] /= [<-] /= Hne; rewrite lookup_assign.
by have -> : String.eqb name "order_date" = false by exact: negbTE.
Qed.

Lemma index_handle_missing opt df df' :
  handle_missing opt df = Ok df' -> subseq (index df') (index df).
Proof.
case: opt => /=.
- by case=> <-; exact: mask_subseq.
- by move=> /bind_ok [cs _] /= [<-].
- by case=> <-.
Qed.

Lemma remove_invalid_inv df r :
  remove_invalid df = Ok r ->
  exists price quantity,
    [/\ lookup "price" (columns df) = Some price,
        lookup "quantity" (columns df) = Some quantity,
        exists lt le, [/\ compare0 lt0 price = Ok lt,
                          compare0 le0 quantity = Ok le
                        & r.1 = count id (series_or lt le)]
      & exists ge gt, [/\ compare0 ge0 price = Ok ge,
                          compare0 gt0 quantity = Ok gt
                        & r.2 = select (series_and ge gt) df]].
Proof.
rewrite /remove_invalid /getitem.
case Ep: (lookup "price") => [price|] //=.
move=> /bind_ok [lt Hlt] /=; case Eq: (lookup "quantity") => [quantity|] //=.
move=> /bind_ok [le Hle] /= /bind_ok [ge Hge] /= /bind_ok [gt Hgt] /= [<-].
by exists price, quantity; split=> //; [exists lt, le | exists ge, gt].
Qed.

Lemma index_remove_invalid df r :
  remove_invalid df = Ok r -> subseq (index r.2) (index df).
Proof.
move=> /remove_invalid_inv [p [q [_ _ _ [ge [gt [_ _ ->]]]]]].
exact: mask_subseq.
Qed.

(** The steps of [clean], one by one. *)
Lemma clean_inv opt df0 r :
  clean parse mixed epoch opt df0 = Ok r ->
  exists df1 df3,
    [/\ parse_order_date parse mixed epoch df0 = Ok df1,
        handle_missing opt (drop_duplicates df1) = Ok df3
      & remove_invalid df3 = Ok (invalid_rows r, cleaned r)].
Proof.
rewrite /clean => /bind_ok [df1 H1] /= /bind_ok [df3 H3] /=.
move=> /bind_ok [[n df4] H4] /= [<-] /=.
by exists df1, df3.
Qed.

Lemma wf_clean opt df0 r :
  clean parse mixed epoch opt df0 = Ok r -> wf df0 -> wf (cleaned r).
Proof.
move=> /clean_inv [df1 [df3 [H1 H3 H4]]] Hwf.
apply: (wf_remove_invalid H4); apply: (wf_handle_missing H3).
by apply: wf_select; apply: (wf_parse_order_date H1).
Qed.

Lemma index_clean opt df0 r :
  clean parse mixed epoch opt df0 = Ok r -> subseq (index (cleaned r)) (index df0).
Proof.
move=> /clean_inv [df1 [df3 [H1 H3 H4]]].
apply: subseq_trans (index_remove_invalid H4) _.
apply: subseq_trans (index_handle_missing H3) _.
by rewrite -(index_parse_order_date H1); exact: mask_subseq.
Qed.

End PipelineFacts.

(** ** Comparisons with 0 *)

Lemma numeric_view_cells c v :
  numeric_view c = Ok v -> v = [seq cell_number x | x <- cells c].
Proof.
case: c => xs //=.
- by case=> <-; rewrite -map_comp.
- by case=> <-; rewrite -map_comp; elim: xs => [|[q|] xs IH] //=; rewrite -IH.
- case: ifP => // Hn [<-]; rewrite -map_comp.
  by elim: xs Hn => [|[[s|t|b]|] xs IH] //= /IH ->.
- by case=> <-; rewrite -map_comp.
Qed.

Definition holds (op : Q -> bool) (c : cell) : bool :=
  if cell_number c is Some q then op q else false.

Lemma compare0_cells op c b :
  compare0 op c = Ok b -> b = [seq holds op x | x <- cells c].
Proof.
by move=> /bind_ok [v /numeric_view_cells ->] /= [<-]; rewrite -map_comp.
Qed.

Lemma all_mask_and_l A (p : pred A) (s : seq A) (b : bitseq) :
  all p (mask (series_and [seq p x | x <- s] b) s).
Proof.
rewrite /series_and; elim: s b => [|x s IH] [|y b] //=.
by case Hx: (p x); case: y => //=; rewrite ?Hx IH.
Qed.

Lemma all_mask_and_r A (p : pred A) (s : seq A) (a : bitseq) :
  all p (mask (series_and a [seq p x | x <- s]) s).
Proof.
rewrite /series_and; elim: s a => [|x s IH] [|y a] //=.
by case Hx: (p x); case: y => //=; rewrite ?Hx IH.
Qed.

Lemma holds_ge0 c : holds ge0 c -> nonnegative c.
Proof.
rewrite /holds; case E: cell_number => [q|] // H; exists q => //.
exact/Qle_bool_iff.
Qed.

Lemma holds_gt0 c : holds gt0 c -> positive_number c.
Proof.
rewrite /holds /gt0; case E: cell_number => [q|] // H; exists q => //.
by apply: Qnot_le_lt => /Qle_bool_iff Hle; rewrite Hle in H.
Qed.

Lemma cell_at_select m df name i :
  cell_at (select m df) name i =
  if lookup name (columns df) is Some c then nth CNaN (mask m (cells c)) i
  else CNaN.
Proof.
by rewrite /cell_at /select /= lookup_map; case: lookup => //= c;
   rewrite cells_mask.
Qed.

Lemma wf_lookup df name c :
  wf df -> lookup name (columns df) = Some c -> size (cells c) = nrows df.
Proof.
case/andP=> _ /allP H /lookup_in /H /= /eqP <-; exact/esym/col_size_cells.
Qed.

Lemma nrows_select m df name c :
  wf df -> lookup name (columns df) = Some c ->
  nrows (select m df) = size (mask m (cells c)).
Proof.
move=> Hwf /(wf_lookup Hwf) E; rewrite /nrows /=.
exact: size_mask_same.
Qed.

(** ** Positions, labels and masks *)

Lemma nth_series_and a b i :
  nth false (series_and a b) i = nth false a i && nth false b i.
Proof.
rewrite /series_and; elim: a b i => [|x a IH] [|y b] [|i] //=;
  rewrite ?andbF ?nth_nil ?andbF //.
Qed.

Lemma mem_mask_nth (T : eqType) (x0 : T) (s : seq T) (m : bitseq) i :
  uniq s -> i < size s -> (nth x0 s i \in mask m s) = nth false m i.
Proof.
elim: s m i => [|x s IH] [|b m] [|i] //= /andP [Hx Hu] Hi.
- case: b => /=; first by rewrite mem_head.
  by apply/negbTE/negP => /mem_mask; exact/negP.
- have Hn : nth x0 s i \in s by exact: mem_nth.
  have Hne : (nth x0 s i == x) = false.
    by apply/negbTE/eqP => E; rewrite -E Hn in Hx.
  by case: b => /=; rewrite ?in_cons ?Hne /= IH.
Qed.

Lemma nth_mask_index (T : eqType) A (x0 : T) (y0 : A) s (t : seq A) m i :
  uniq s -> size t = size s -> i < size s -> nth false m i ->
  nth y0 (mask m t) (seq.index (nth x0 s i) (mask m s)) = nth y0 t i.
Proof.
elim: m s t i => [|b m IH] [|x s] [|y t] [|i] //=.
- by move=> _ _ _ ->; rewrite /= eqxx.
- move=> /andP [Hx Hu] [Es] Hi Hm.
  have Hn : nth x0 s i \in s by exact: mem_nth.
  have Hne : (x == nth x0 s i) = false.
    by apply/negbTE/eqP => E; rewrite E Hn in Hx.
  by case: b => /=; rewrite ?Hne /= IH.
Qed.

Lemma nth_mask_iota A (x0 : A) (m : bitseq) (s : seq A) j :
  j < size (mask m s) ->
  nth x0 (mask m s) j = nth x0 s (nth 0 (mask m (iota 0 (size s))) j).
Proof.
move=> Hj.
have Es : s = [seq nth x0 s i | i <- iota 0 (size s)].
  by rewrite -/(mkseq _ _) mkseq_nth.
rewrite {1}Es -map_mask (nth_map 0) // (@size_mask_same _ _ m _ s) //.
by rewrite size_iota.
Qed.

Lemma mask_iota_bound (m : bitseq) n j :
  j < size (mask m (iota 0 n)) -> nth 0 (mask m (iota 0 n)) j < n.
Proof.
move=> Hj; have := mem_nth 0 Hj => /mem_mask.
by rewrite mem_iota add0n.
Qed.

(** ** Constant fill, cell by cell *)

Lemma compare0_numeric op c b : compare0 op c = Ok b -> is_ok (numeric_view c).
Proof. by move=> /bind_ok [v ->]. Qed.

Lemma fill_constant_nan c i :
  is_ok (numeric_view (fill_constant c)) -> i < col_size c ->
  nth CNaN (cells c) i = CNaN ->
  nth CNaN (cells (fill_constant c)) i = CFloat 0.
Proof.
case: c => xs /=.
- by move=> _ Hi; rewrite (nth_map 0%Z).
- move=> _ Hi; rewrite /fillna -map_comp !(nth_map None) //.
  by case: (nth None xs i).
- move=> Hok Hi Hn.
  suff: has unorderable (fillna (PStr unknown) xs) by move=> E; rewrite E in Hok.
  apply/hasP; exists (Some (PStr unknown)) => //.
  apply/mapP; exists (nth None xs i); first exact: mem_nth.
  by move: Hn; rewrite (nth_map None) //; case: (nth None xs i).
- by move=> _ Hi; rewrite (nth_map false).
- case: ifP => [_ /= Hok Hi|]; last by [].
  rewrite (nth_map None) // => Hn.
  suff: has unorderable [seq Some (if x is Some t then PTimestamp t else PStr unknown) | x <- xs].
    by move=> E; rewrite E in Hok.
  apply/hasP; exists (Some (PStr unknown)) => //.
  apply/mapP; exists (nth None xs i); first exact: mem_nth.
  by move: Hn; case: (nth None xs i).
Qed.

Lemma fill_constant_number c i q :
  cell_number (nth CNaN (cells c) i) = Some q ->
  nth CNaN (cells (fill_constant c)) i = nth CNaN (cells c) i.
Proof.
case: c => xs //=.
- case: (ltnP i (size xs)) => Hi; last by rewrite nth_default // size_map.
  by rewrite /fillna -map_comp !(nth_map None) //; case: (nth None xs i).
- case: (ltnP i (size xs)) => Hi; last by rewrite nth_default // size_map.
  by rewrite /fillna -map_comp !(nth_map None) //; case: (nth None xs i).
- case: (ltnP i (size xs)) => Hi; last by rewrite nth_default // size_map.
  by rewrite (nth_map None) //; case: (nth None xs i).
Qed.

(** ** The orders used to sort the modes *)

Lemma string_compare_lt_trans s1 s2 s3 :
  String.compare s1 s2 = Lt -> String.compare s2 s3 = Lt ->
  String.compare s1 s3 = Lt.
Proof.
elim: s1 s2 s3 => [|a s1 IH] [|b s2] [|c s3] //=.
case Eab: (Ascii.compare a b) => //; case Ebc: (Ascii.compare b c) => //.
- move/Ascii.compare_eq_iff: Eab => ->; move/Ascii.compare_eq_iff: Ebc => ->.
  by rewrite /Ascii.compare N.compare_refl; exact: IH.
- by move/Ascii.compare_eq_iff: Eab => ->; rewrite Ebc.
- by move/Ascii.compare_eq_iff: Ebc => <-; rewrite Eab.
- move: Eab Ebc; rewrite /Ascii.compare !N.compare_lt_iff => Hab Hbc.
  by rewrite (proj2 (N.compare_lt_iff _ _) (N.lt_trans _ _ _ Hab Hbc)).
Qed.

Lemma string_leb_trans : transitive String.leb.
Proof.
move=> s2 s1 s3; rewrite /String.leb.
case E12: (String.compare s1 s2) => // _; case E23: (String.compare s2 s3) => // _.
- by move/String.compare_eq_iff: E12 => ->; rewrite E23.
- by move/String.compare_eq_iff: E12 => ->; rewrite E23.
- by move/String.compare_eq_iff: E23 => <-; rewrite E12.
- by rewrite (string_compare_lt_trans E12 E23).
Qed.

Lemma string_leb_total : total String.leb.
Proof. by move=> s t; case: (String.leb_total s t) => ->; rewrite ?orbT. Qed.

Lemma Z_leb_trans : transitive Z.leb.
Proof. move=> y x z /Z.leb_le H1 /Z.leb_le H2; apply/Z.leb_le; lia. Qed.

Lemma Z_leb_total : total Z.leb.
Proof.
move=> x y; apply/orP; case: (Z.le_ge_cases x y) => /Z.leb_le ->; by [left|right].
Qed.

Lemma pyobj_leb_trans : transitive pyobj_leb.
Proof.
move=> [s2|t2|b2] [s1|t1|b1] [s3|t3|b3] //=;
  [exact: string_leb_trans|exact: Z_leb_trans|by case: b1; case: b2].
Qed.

Lemma pyobj_leb_total : total pyobj_leb.
Proof.
move=> [s1|t1|b1] [s2|t2|b2] //=;
  [exact: string_leb_total|exact: Z_leb_total|by case: b1; case: b2].
Qed.

Lemma pyobj_eqbE a b : pyobj_eqb a b = (a == b).
Proof.
by case: a b => [s|t|b] [s'|t'|b'].
Qed.

Lemma Z_eqbE (a b : Z) : Z.eqb a b = (a == b).
Proof. by []. Qed.

(** ** The first mode *)

Section ModeFacts.

Variable T : eqType.
Variables eqb leb : T -> T -> bool.
Hypothesis eqbE : forall x y, eqb x y = (x == y).
Hypothesis leb_total : total leb.
Hypothesis leb_trans : transitive leb.

Lemma mem_uniques (s : seq T) : uniques eqb s =i s.
Proof.
elim: s => [|x s IH] y //=; rewrite !in_cons mem_filter IH eqbE eq_sym.
by case: (x == y).
Qed.

Lemma occurrences_notin x (s : seq T) : x \notin s -> occurrences eqb x s = 0.
Proof.
move=> Hx; rewrite /occurrences; apply/eqP; rewrite -leqn0 leqNgt -has_count.
by apply/hasPn => y Hy; rewrite eqbE; apply: contraNneq Hx => ->.
Qed.

Lemma foldr_maxn_ge (f : T -> nat) (s : seq T) x :
  x \in s -> f x <= foldr maxn 0 [seq f y | y <- s].
Proof.
elim: s => [|y s IH] //=; rewrite in_cons leq_max => /orP [/eqP ->|/IH ->].
  by rewrite leqnn.
by rewrite orbT.
Qed.

Lemma foldr_maxn_attained (f : T -> nat) (s : seq T) :
  s != [::] -> exists2 x, x \in s & f x = foldr maxn 0 [seq f y | y <- s].
Proof.
elim: s => [|y s IH] //= _.
case: (leqP (foldr maxn 0 [seq f z | z <- s]) (f y)) => Hle.
  by exists y; rewrite ?mem_head.
have Hs : s != [::] by case: s Hle {IH}.
case: (IH Hs) => x Hx Ex; exists x; first by rewrite in_cons Hx orbT.
by [].
Qed.

Lemma max_occ_ge x (s : seq T) : occurrences eqb x s <= max_occ eqb s.
Proof.
case Hx: (x \in s); first exact: (foldr_maxn_ge (fun y => occurrences eqb y s)).
by rewrite occurrences_notin ?Hx.
Qed.

Lemma mem_modes x (s : seq T) :
  (x \in modes eqb s) = (x \in s) && (occurrences eqb x s == max_occ eqb s).
Proof. by rewrite mem_filter mem_uniques andbC. Qed.

Lemma modes_nonempty (s : seq T) : s != [::] -> modes eqb s != [::].
Proof.
move=> /(foldr_maxn_attained (fun y => occurrences eqb y s)) [x Hx Ex].
have: x \in modes eqb s by rewrite mem_modes Hx /max_occ -Ex eqxx.
by case: (modes eqb s).
Qed.

(** [mode()[0]] raises exactly on a series without any value. *)
Lemma first_mode_ok (s : seq T) : s != [::] -> is_ok (first_mode (mode eqb leb s)).
Proof.
move=> /modes_nonempty; rewrite /mode -size_eq0 -(size_sort leb) size_eq0.
by case: (sort leb (modes eqb s)).
Qed.

Lemma first_modes_spec (s : seq T) m :
  first_mode (modes eqb s) = Ok m ->
  m \in s /\ (forall y, occurrences eqb y s <= occurrences eqb m s).
Proof.
case E: (modes eqb s) => [|x l] //= [Em]; move: E; rewrite {x}Em => E.
have: m \in modes eqb s by rewrite E mem_head.
by rewrite mem_modes => /andP [Hm /eqP ->]; split=> // y; exact: max_occ_ge.
Qed.

(** [mode()[0]] is a most frequent value, the least of those. *)
Lemma first_mode_spec (s : seq T) m :
  first_mode (mode eqb leb s) = Ok m ->
  [/\ m \in s,
      forall y, occurrences eqb y s <= occurrences eqb m s
    & forall y, y \in s -> occurrences eqb y s = occurrences eqb m s ->
                leb m y].
Proof.
rewrite /mode; case E: (sort leb (modes eqb s)) => [|x l] //= [Em].
move: E; rewrite {x}Em => E.
have Hm : m \in modes eqb s by rewrite -(mem_sort leb) E mem_head.
move: (Hm); rewrite mem_modes => /andP [Hms /eqP Emax].
split=> // [y|y Hy Ey]; first by rewrite Emax; exact: max_occ_ge.
have: y \in sort leb (modes eqb s).
  by rewrite mem_sort mem_modes Hy Ey Emax eqxx.
have := sort_sorted leb_total (modes eqb s); rewrite E /= => Hp.
rewrite in_cons => /orP [/eqP ->|Hl].
  by case/orP: (leb_total m m).
by move/allP: (order_path_min leb_trans Hp); apply.
Qed.

Lemma occurrences_count_mem x (s : seq T) : occurrences eqb x s = count_mem x s.
Proof. by apply: eq_count => y /=; rewrite eqbE eq_sym. Qed.

Lemma first_modes_frequent (s : seq T) m :
  first_mode (modes eqb s) = Ok m -> most_frequent m s.
Proof.
move=> /first_modes_spec [Hm Hmax]; split=> // y.
by rewrite -!occurrences_count_mem.
Qed.

Lemma first_mode_frequent (s : seq T) m :
  first_mode (mode eqb leb s) = Ok m -> first_most_frequent leb m s.
Proof.
move=> /first_mode_spec [Hm Hmax Hmin]; split=> [|y [Hy Hymax]].
  by split=> // y; rewrite -!occurrences_count_mem.
apply: Hmin => //; apply/eqP; rewrite eqn_leq Hmax /=.
by rewrite !occurrences_count_mem.
Qed.

End ModeFacts.

(** ** The median *)

Lemma Qle_bool_trans : transitive Qle_bool.
Proof.
move=> y x z /Qle_bool_iff H1 /Qle_bool_iff H2; apply/Qle_bool_iff.
exact: Qle_trans H1 H2.
Qed.

Lemma Qle_bool_total : total Qle_bool.
Proof.
move=> x y; case Hxy: (Qle_bool x y) => //=; apply/Qle_bool_iff.
apply: Qlt_le_weak; apply: Qnot_le_lt => /Qle_bool_iff.
by rewrite Hxy.
Qed.

Lemma Qle_bool_refl : reflexive Qle_bool.
Proof. by move=> x; case/orP: (Qle_bool_total x x). Qed.

Lemma count_prefix A (p : pred A) x0 (t : seq A) k :
  k <= size t -> (forall i, i < k -> p (nth x0 t i)) -> k <= count p t.
Proof.
move=> Hk H; rewrite -(cat_take_drop k t) count_cat.
have /eqP -> : count p (take k t) == size (take k t).
  rewrite -all_count; apply/(all_nthP x0) => i; rewrite size_takel // => Hi.
  by rewrite nth_take //; exact: H.
by rewrite size_takel // leq_addr.
Qed.

Lemma count_suffix A (p : pred A) x0 (t : seq A) k :
  (forall i, k <= i -> i < size t -> p (nth x0 t i)) -> size t - k <= count p t.
Proof.
move=> H; rewrite -{2}(cat_take_drop k t) count_cat.
have /eqP -> : count p (drop k t) == size (drop k t).
  rewrite -all_count; apply/(all_nthP x0) => i; rewrite size_drop nth_drop => Hi.
  by apply: H; rewrite ?leq_addr // -ltn_subRL.
by rewrite size_drop leq_addl.
Qed.

Lemma Qmean_between (a b : Q) :
  Qle_bool a b ->
  Qle_bool a (Qred ((a + b) / 2)) && Qle_bool (Qred ((a + b) / 2)) b.
Proof.
move=> /Qle_bool_iff Hab; apply/andP; split; apply/Qle_bool_iff;
  rewrite Qred_correct.
- by apply: Qle_shift_div_l => //; lra.
- by apply: Qle_shift_div_r => //; lra.
Qed.

Lemma half_odd_le n k c : n = k.*2.+1 -> k < c -> n <= c.*2.
Proof.
move=> -> H; apply: leq_trans (_ : k.+1.*2 <= _); last by rewrite leq_double.
by rewrite doubleS.
Qed.

Lemma half_odd_sub n k : n = k.*2.+1 -> n - k = k.+1.
Proof. by move=> ->; rewrite -addnn -addSn addnK. Qed.

Lemma half_even_sub n k : n = k.*2 -> n - k = k.
Proof. by move=> ->; rewrite -addnn addnK. Qed.

(** The float range. *)
Lemma float_overflow_pos : (0 < float_overflow)%Q.
Proof. by vm_compute. Qed.



Lemma float_mean_none a b :
  float_mean a b = None ->
  (is_ninf a && is_pinf b) || (is_pinf a && is_ninf b).
Proof.
rewrite /float_mean /float_add.
case: (is_pinf a); case: (is_ninf a); case: (is_pinf b); case: (is_ninf b) => //=;
  by do ?case: ifP.
Qed.



Lemma half_even_lt n k c : n = k.*2 -> k < c -> n < c.*2.
Proof. by move=> -> H; rewrite ltn_double. Qed.

Lemma half_odd_lt n k c : n = k.*2.+1 -> k < c -> n < c.*2.
Proof.
move=> -> H; apply: leq_trans (_ : k.+1.*2 <= _); last by rewrite leq_double.
by rewrite doubleS.
Qed.


(** The two middle values of a sorted series. *)
Lemma sorted_middle (t : seq Q) :
  sorted Qle_bool t -> 0 < size t ->
  let k := (size t)./2 in
  let a := nth 0%Q t (if odd (size t) then k else k.-1) in
  let b := nth 0%Q t k in
  lower_middle a t /\ upper_middle b t.
Proof.
move=> Hs Hpos k.
have Hle i j : i <= j -> j < size t -> Qle_bool (nth 0%Q t i) (nth 0%Q t j).
  move=> Hij Hj; apply: (sorted_leq_nth Qle_bool_trans Qle_bool_refl) => //.
  by rewrite inE; exact: leq_ltn_trans Hij Hj.
have Hh : k < size t.
  by rewrite /k ltn_half_double -addnn -{1}(addn0 (size t)) ltn_add2l.
case Ho: (odd (size t)) => /=.
- have En : size t = k.*2.+1 by rewrite -{1}(odd_double_half (size t)) Ho.
  have H1 : k < count (Qle_bool^~ (nth 0%Q t k)) t.
    apply: (@count_prefix _ _ 0%Q) => // i.
    by rewrite ltnS => Hi; exact: Hle.
  have H2 : k < count (Qle_bool (nth 0%Q t k)) t.
    rewrite -(half_odd_sub En).
    by apply: (@count_suffix _ _ 0%Q) => i Hi; exact: Hle.
  by split; split; rewrite ?mem_nth //;
     [exact: ltnW (half_odd_lt En H1)|exact: half_odd_lt En H2
     |exact: half_odd_lt En H1|exact: ltnW (half_odd_lt En H2)].
- have En : size t = k.*2 by rewrite -{1}(odd_double_half (size t)) Ho.
  have Hk : 0 < k by rewrite -double_gt0 -En.
  have Hprev : k.-1 < k by rewrite prednK.
  have Hp : k.-1 < size t := ltn_trans Hprev Hh.
  split; split; rewrite ?mem_nth //.
  + rewrite {1}En leq_double.
    apply: (@count_prefix _ _ 0%Q); first exact: ltnW.
    by move=> i Hi; apply: Hle => //; rewrite -ltnS prednK.
  + apply: (half_even_lt En).
    have -> : k.+1 = size t - k.-1.
      by rewrite En -addnn -{3}(prednK Hk) addnS subSn ?leq_addl // addnK.
    by apply: (@count_suffix _ _ 0%Q) => i Hi Hlt; exact: Hle.
  + apply: (half_even_lt En); apply: (@count_prefix _ _ 0%Q) => // i.
    by rewrite ltnS => Hi; exact: Hle.
  + rewrite {1}En leq_double -{1}(half_even_sub En).
    by apply: (@count_suffix _ _ 0%Q) => i Hi Hlt; exact: Hle.
Qed.

Lemma lower_middle_perm a (s t : seq Q) :
  perm_eq s t -> lower_middle a t -> lower_middle a s.
Proof.
move=> Hp [H1 H2 H3]; split.
- by rewrite (perm_mem Hp).
- by rewrite (perm_size Hp) (permP Hp).
- by rewrite (perm_size Hp) (permP Hp).
Qed.

Lemma upper_middle_perm b (s t : seq Q) :
  perm_eq s t -> upper_middle b t -> upper_middle b s.
Proof.
move=> Hp [H1 H2 H3]; split.
- by rewrite (perm_mem Hp).
- by rewrite (perm_size Hp) (permP Hp).
- by rewrite (perm_size Hp) (permP Hp).
Qed.


(** The median is missing on an empty series, and when the two middle values
    are the two infinities. *)
Lemma median_none s :
  median s = None ->
  s = [::] \/
  exists a b, [/\ lower_middle a s, upper_middle b s, is_ninf a & is_pinf b].
Proof.
case: (altP (s =P [::])) => [->|Hne]; first by left.
have Hpos : 0 < size (sort Qle_bool s) by rewrite size_sort lt0n size_eq0.
have Hp : perm_eq s (sort Qle_bool s) by rewrite perm_sym perm_sort.
have Hs := sort_sorted Qle_bool_total s.
have := sorted_middle Hs Hpos.
rewrite /median /= size_sort size_eq0 (negbTE Hne).
case Ho: (odd (size s)) => // -[Ha Hb].
set a := nth _ _ _ in Ha *; set b := nth _ _ _ in Hb *.
case E: float_mean => [m|] //= _; right; exists a, b.
have Hab : Qle_bool a b.
  apply: (sorted_leq_nth Qle_bool_trans Qle_bool_refl) => //;
    rewrite ?inE ?size_sort ?leq_pred //.
  - apply: leq_ltn_trans (leq_pred _) _.
    by rewrite ltn_half_double -addnn -{1}(addn0 (size s)) ltn_add2l lt0n size_eq0.
  - by rewrite ltn_half_double -addnn -{1}(addn0 (size s)) ltn_add2l lt0n size_eq0.
have Hinf : is_ninf a /\ is_pinf b.
  case/orP: (float_mean_none E) => /andP [H1 H2] //; exfalso.
  have H0 := float_overflow_pos.
  move: H1 H2 Hab; rewrite /is_pinf /is_ninf.
  by move=> /Qle_bool_iff H1 /Qle_bool_iff H2 /Qle_bool_iff H3; lra.
case: Hinf => Na Pb; split=> //.
- exact: lower_middle_perm Hp Ha.
- exact: upper_middle_perm Hp Hb.
Qed.

Lemma infinite_middles_opposite c : infinite_middles c -> opposite_infinities c.
Proof.
case: c => //= xs [a [b [[Ha _ _] [Hb _ _] Na Pb]]].
by apply/andP; split; apply/hasP; [exists a|exists b].
Qed.


(** ** Central-tendency fill, column by column *)

Lemma fillna_id A (v : A) xs : ~~ has missing xs -> fillna v xs = xs.
Proof. by elim: xs => [|[a|] xs IH] //= /IH ->. Qed.

Lemma values_downcast xs : values (downcast_object xs) = values (Object xs).
Proof.
rewrite /downcast_object; case: ifP => // Hb; rewrite /values /= -!map_comp.
by elim: xs Hb => [|[[s|t|b]|] xs IH] //= /IH ->.
Qed.


Lemma names_mapM (f : column -> result column) (cs cs' : seq (string * column)) :
  mapM (fun nc => c <-- f nc.2 ;; Ok (nc.1, c)) cs = Ok cs' ->
  [seq nc.1 | nc <- cs'] = [seq nc.1 | nc <- cs].
Proof.
elim: cs cs' => [|[n c] cs IH] cs' /=; first by case=> <-.
move=> /bind_ok [[n' c']] /bind_ok [c1 _] /= [<- _] /bind_ok [bs /IH {}IH] /= [<-].
by rewrite /= IH.
Qed.

(** ** What is left missing after each strategy *)

Lemma in_mapM (f : column -> result column) (cs cs' : seq (string * column)) n c' :
  mapM (fun nc => c <-- f nc.2 ;; Ok (nc.1, c)) cs = Ok cs' ->
  (n, c') \in cs' -> exists2 c, (n, c) \in cs & f c = Ok c'.
Proof.
elim: cs cs' => [|[n0 c0] cs IH] cs' /=; first by case=> <-.
move=> /bind_ok [[n1 c1]] /bind_ok [c2 Hf] /= [<- <-] /bind_ok [bs /IH {}IH] /= [<-].
rewrite in_cons => /orP [/eqP [-> ->]|/IH [c Hc Hfc]].
  by exists c0; rewrite ?mem_head.
by exists c; rewrite // in_cons Hc orbT.
Qed.

Lemma isnull_fillna A (f : A -> cell) (v : A) xs :
  (forall a, ~~ isna (f a)) ->
  count isna [seq ocell f x | x <- fillna v xs] = 0.
Proof.
move=> Hf; rewrite /fillna -map_comp.
by elim: xs => [|[a|] xs IH] //=; rewrite IH (negbTE (Hf _)).
Qed.

Lemma isnull_total A (f : A -> cell) (xs : seq A) :
  (forall a, ~~ isna (f a)) -> count isna [seq f x | x <- xs] = 0.
Proof.
by move=> Hf; elim: xs => [|a xs IH] //=; rewrite IH (negbTE (Hf _)).
Qed.

Lemma fill_constant_no_missing c : no_missing (fill_constant c).
Proof.
rewrite /no_missing /isnull_sum; case: c => xs /=.
- by rewrite isnull_total.
- by rewrite isnull_fillna.
- by rewrite isnull_fillna.
- by rewrite isnull_total.
- case: ifP => [_|Hn] /=.
    by rewrite -map_comp isnull_total.
  by elim: xs Hn => [|[t|] xs IH] //= /IH.
Qed.

Lemma present_nil A (xs : seq (option A)) :
  present xs = [::] -> all (fun x => ~~ isSome x) xs.
Proof. by elim: xs => [|[a|] xs IH]. Qed.

Lemma downcast_object_no_missing (v : pyobj) xs :
  no_missing (downcast_object (fillna v xs)).
Proof.
rewrite /no_missing /isnull_sum /downcast_object; case: ifP => _ /=.
  by rewrite isnull_total.
by rewrite isnull_fillna.
Qed.

Lemma fill_central_no_missing c c' :
  fill_central c = Ok c' ->
  no_missing c' \/
  (c' = c /\ exists2 xs, c = Float64 xs & all_missing c \/ infinite_middles c).
Proof.
case: c => xs /=.
- by case=> <- /=; left; rewrite /no_missing /isnull_sum /= isnull_total.
- case=> <-; case E: median => [m|] /=.
    by left; rewrite /no_missing /isnull_sum /= isnull_fillna.
  right; split=> //; exists xs => //.
  case/median_none: E => [/present_nil H|H]; last by right.
  by left; rewrite /all_missing /= all_map; apply: sub_all H; case.
- move=> /bind_ok [m _] /= [<-] /=; left; case: ifP => [_|/negbT H].
    exact: downcast_object_no_missing.
  by rewrite /no_missing /isnull_sum /= -(fillna_id m H) isnull_fillna.
- by move=> /bind_ok [m _] /= [<-]; left; rewrite /no_missing /isnull_sum /= isnull_total.
- by move=> /bind_ok [m _] /= [<-]; left; rewrite /no_missing /isnull_sum /= isnull_fillna.
Qed.

Lemma nth_rows_mask (p : pred row) df i :
  nth false [seq p r | r <- rows df] i -> i < nrows df /\ p (row_at df i).
Proof.
case: (ltnP i (nrows df)) => Hi; last by rewrite nth_default // !size_map size_iota.
by rewrite /rows -map_comp (nth_map 0) ?size_iota // nth_iota.
Qed.

Lemma dropna_no_missing df n c :
  (n, c) \in columns (dropna df) -> no_missing c.
Proof.
rewrite /dropna /select /= => /mapP [[n0 c0] Hin /= [_ ->]].
rewrite /no_missing /isnull_sum cells_mask -leqn0 leqNgt -has_count -all_predC.
apply: (@all_mask_nth _ _ CNaN) => i Hi /nth_rows_mask [_] /=.
apply: contra => Hna; apply/hasP; exists (nth CNaN (cells c0) i) => //.
by apply/mapP; exists (n0, c0).
Qed.

(** ** Deduplication keeps one representative of every row *)

Lemma cell_eqb_refl a : cell_eqb a a.
Proof.
case: a => //= [z|q|[s|t|b]|t] /=; rewrite ?Z.eqb_refl ?Qeq_bool_refl //.
exact: String.eqb_refl.
Qed.

Lemma cell_eqb_trans : transitive cell_eqb.
Proof.
move=> b a c; case: a; case: b => //=; case: c => //=.
- by move=> z y x /Z.eqb_spec -> /Z.eqb_spec ->; rewrite Z.eqb_refl.
- by move=> z y x; exact: Qeq_bool_trans.
- by move=> z y x; rewrite !pyobj_eqbE => /eqP -> /eqP ->.
- by move=> z y x /eqP -> /eqP ->.
- by move=> z y x /Z.eqb_spec -> /Z.eqb_spec ->; rewrite Z.eqb_refl.
Qed.

Lemma cell_eqb_isna a b : cell_eqb a b -> isna a = isna b.
Proof. by case: a; case: b. Qed.

Lemma row_eqb_refl r : row_eqb r r.
Proof. by elim: r => [|a r IH] //=; rewrite cell_eqb_refl. Qed.

Lemma row_eqb_trans : transitive row_eqb.
Proof.
move=> r2 r1 r3; elim: r1 r2 r3 => [|a r1 IH] [|b r2] [|c r3] //=.
by move=> /andP [Hab H12] /andP [Hbc H23]; rewrite (cell_eqb_trans Hab Hbc) (IH r2).
Qed.

Lemma row_eqb_nth r1 r2 k :
  row_eqb r1 r2 -> cell_eqb (nth CNaN r1 k) (nth CNaN r2 k).
Proof.
elim: r1 r2 k => [|a r1 IH] [|b r2] [|k] //= /andP [Hab H] //.
exact: IH.
Qed.

Lemma kept_representative seen rs i :
  i < size rs ->
  has (row_eqb (nth [::] rs i)) seen \/
  exists j, [/\ j <= i, nth true (duplicated_from seen rs) j = false
               & row_eqb (nth [::] rs i) (nth [::] rs j)].
Proof.
elim: rs seen i => [|r0 rs IH] seen [|i] //= Hi.
- case Hd: (has (row_eqb r0) seen); first by left.
  by right; exists 0; rewrite /= row_eqb_refl.
- case: (IH (rcons seen r0) i Hi) => [|[j [Hj Hk He]]]; last first.
    by right; exists j.+1.
  rewrite has_rcons => /orP [Her|Hs]; last by left.
  case Hd: (has (row_eqb r0) seen); last by right; exists 0.
  left; case/hasP: Hd => r Hr H0; apply/hasP; exists r => //.
  exact: row_eqb_trans Her H0.
Qed.

Lemma has_mask_nth A (p : pred A) x0 (m : bitseq) (s : seq A) j :
  j < size s -> nth false m j -> p (nth x0 s j) -> has p (mask m s).
Proof.
elim: m s j => [|b m IH] [|x s] [|j] //=; rewrite ?nth_nil //.
- by move=> _ -> /= ->.
- by move=> Hj Hm Hp; case: b => /=; rewrite (IH _ _ Hj Hm Hp) ?orbT.
Qed.

Lemma size_duplicated_from seen rs : size (duplicated_from seen rs) = size rs.
Proof. by elim: rs seen => [|r rs IH] seen //=; rewrite IH. Qed.

Lemma nth_rows df i : i < nrows df -> nth [::] (rows df) i = row_at df i.
Proof. by move=> Hi; rewrite /rows (nth_map 0) ?size_iota // nth_iota. Qed.

Lemma nth_row_at df n c i :
  (n, c) \in columns df ->
  nth CNaN (row_at df i) (seq.index (n, c) (columns df)) = nth CNaN (cells c) i.
Proof.
move=> Hin; rewrite /row_at (nth_map (n, c)) ?index_mem //.
by rewrite nth_index.
Qed.

Lemma drop_duplicates_has (P : pred cell) df n c :
  (forall a b, cell_eqb a b -> P a = P b) ->
  wf df -> (n, c) \in columns df -> has P (cells c) ->
  has P (cells (mask_col [seq ~~ b | b <- duplicated df] c)).
Proof.
move=> HP Hwf Hin /(has_nthP CNaN) [i Hi Hv].
have Hsz : size (cells c) = nrows df.
  by case/andP: Hwf => _ /allP /(_ _ Hin) /= /eqP <-; rewrite col_size_cells.
have Hin' : i < size (rows df) by rewrite size_map size_iota -Hsz.
case: (kept_representative [::] Hin') => [//|[j [Hj Hk He]]].
have Hjn : j < nrows df by rewrite -Hsz; exact: leq_ltn_trans Hj Hi.
rewrite cells_mask; apply: (@has_mask_nth _ _ CNaN _ _ j).
- by rewrite Hsz.
- rewrite (nth_map true) ?Hk // size_duplicated_from.
  by rewrite size_map size_iota.
- have Hin2 : i < nrows df by rewrite -Hsz.
  move: He; rewrite !nth_rows // => /(row_eqb_nth (seq.index (n, c) (columns df))).
  by rewrite !nth_row_at //= => /HP <-.
Qed.

Lemma drop_duplicates_has_value df n c :
  wf df -> (n, c) \in columns df -> has_value c ->
  has_value (mask_col [seq ~~ b | b <- duplicated df] c).
Proof.
apply: drop_duplicates_has => a b /cell_eqb_isna /=.
by move=> ->.
Qed.

(** ** When the steps complete *)

Lemma mapM_ok (A : eqType) B (f : A -> result B) (s : seq A) :
  (forall x, x \in s -> is_ok (f x)) -> is_ok (mapM f s).
Proof.
elim: s => [|a s IH] //= H.
have: is_ok (f a) by apply: H; rewrite mem_head.
case: (f a) => //= b _.
have: is_ok (mapM f s) by apply: IH => x Hx; apply: H; rewrite in_cons Hx orbT.
by case: (mapM f s).
Qed.

Lemma has_value_present (A : eqType) (f : A -> cell) (xs : seq (option A)) :
  (forall a, ~~ isna (f a)) ->
  has (predC isna) [seq ocell f x | x <- xs] -> present xs != [::].
Proof. by move=> Hf; elim: xs => [|[a|] xs IH]. Qed.

Lemma first_modes_ok (T : eqType) (eqb : T -> T -> bool) (s : seq T) :
  (forall x y, eqb x y = (x == y)) -> s != [::] ->
  is_ok (first_mode (modes eqb s)).
Proof. by move=> E /(modes_nonempty E); case: (modes eqb s). Qed.

Lemma fill_central_ok c : is_number c || has_value c -> is_ok (fill_central c).
Proof.
case: c => xs //=; rewrite /has_value /=.
- move=> /(@has_value_present _ CObj _ (fun=> isT)) Hne.
  rewrite /mode_object; case: ifP => _.
    by case: first_mode (first_mode_ok pyobj_leb pyobj_eqbE Hne).
  by case: first_mode (first_modes_ok pyobj_eqbE Hne).
- move=> Hv; have Hne : xs != [::] by case: xs Hv.
  have E : forall x y : bool, (x == y) = (x == y) by [].
  by case: first_mode (first_mode_ok bool_leb E Hne).
- move=> /(@has_value_present _ CTime _ (fun=> isT)) Hne.
  by case: first_mode (first_mode_ok Z.leb Z_eqbE Hne).
Qed.

Lemma comparable_ok op c : comparable c -> is_ok (compare0 op c).
Proof. by case: c. Qed.

Lemma comparable_mask m c : comparable (mask_col m c) = comparable c.
Proof. by case: c. Qed.

Lemma comparable_fill_constant c : comparable c -> comparable (fill_constant c).
Proof. by case: c. Qed.

Lemma comparable_fill_central c c' :
  fill_central c = Ok c' -> comparable c -> comparable c'.
Proof.
case: c => xs //=.
- by case=> <-.
- by case=> <-.
- by move=> /bind_ok [m _] /= [<-].
Qed.

Lemma lookup_handle_missing opt df df' name c :
  handle_missing opt df = Ok df' ->
  lookup name (columns df) = Some c -> comparable c ->
  exists2 c', lookup name (columns df') = Some c' & comparable c'.
Proof.
case: opt => /=.
- case=> <- /= Ec Hc; rewrite lookup_map Ec /=.
  by eexists; first by []; rewrite comparable_mask.
- move=> /bind_ok [cs Hm] /= [<-] /= Ec Hc.
  move: (lookup_mapM name Hm); rewrite Ec => -[c' Hf Ec'].
  by exists c' => //; exact: comparable_fill_central Hf Hc.
- case=> <- /= Ec Hc; rewrite lookup_map Ec /=.
  by eexists; first by []; exact: comparable_fill_constant.
Qed.

Lemma remove_invalid_ok df price quantity :
  lookup "price" (columns df) = Some price -> comparable price ->
  lookup "quantity" (columns df) = Some quantity -> comparable quantity ->
  is_ok (remove_invalid df).
Proof.
rewrite /remove_invalid /getitem => -> Hp -> Hq /=.
case E1: (compare0 lt0 price) (comparable_ok lt0 Hp) => [a|] //= _.
case E2: (compare0 le0 quantity) (comparable_ok le0 Hq) => [b|] //= _.
case E3: (compare0 ge0 price) (comparable_ok ge0 Hp) => [c|] //= _.
by case E4: (compare0 gt0 quantity) (comparable_ok gt0 Hq) => [d|].
Qed.

Lemma lookup_names name (cs : seq (string * column)) :
  isSome (lookup name cs) = (name \in [seq nc.1 | nc <- cs]).
Proof.
elim: cs => [|[n c] cs IH] //=; rewrite in_cons eq_sym.
by have -> : String.eqb n name = (n == name) by []; case: (n == name).
Qed.

Lemma handle_missing_ok opt df1 :
  wf df1 ->
  (opt = FillMeanMedianMode ->
   forall name c, (name, c) \in columns df1 -> is_number c || has_value c) ->
  is_ok (handle_missing opt (drop_duplicates df1)).
Proof.
move=> Hwf; case: opt => //= /(_ erefl) H.
set f := fun nc : string * column => _.
have: is_ok (mapM f (columns (drop_duplicates df1))).
  apply: mapM_ok => -[n c2] /mapP [[n1 c1] Hin [_ ->]]; rewrite /f /=.
  have: is_ok (fill_central (mask_col [seq ~~ b | b <- duplicated df1] c1)).
    apply: fill_central_ok; case/orP: (H _ _ Hin) => [Hn|Hv].
      by case: c1 Hn {Hin}.
    by rewrite (drop_duplicates_has_value Hwf Hin Hv) orbT.
  by case: fill_central.
by case: mapM.
Qed.

(** ** Daily aggregation *)

Lemma foldl_Qmaxb x s :
  let h := foldl Qmaxb x s in
  [/\ h \in x :: s, Qle_bool x h & forall p, p \in s -> Qle_bool p h].
Proof.
elim: s x => [|y s IH] x /=.
  by rewrite mem_head; split=> //; case/orP: (Qle_bool_total x x).
case: (IH (Qmaxb x y)) => Hin Hle Hall.
have Hx : Qle_bool x (Qmaxb x y).
  by rewrite /Qmaxb; case: ifP => // _; case/orP: (Qle_bool_total x x).
have Hy : Qle_bool y (Qmaxb x y).
  rewrite /Qmaxb; case: ifP => [_|Hn]; first by case/orP: (Qle_bool_total y y).
  by case/orP: (Qle_bool_total x y) => //; rewrite Hn.
split.
- move: Hin; rewrite !in_cons /Qmaxb; case: ifP => _ /orP [/eqP ->|->];
    by rewrite ?eqxx ?orbT.
- exact: Qle_bool_trans Hx Hle.
- move=> p; rewrite in_cons => /orP [/eqP ->|/Hall //].
  exact: Qle_bool_trans Hy Hle.
Qed.

Lemma foldl_Qminb x s :
  let l := foldl Qminb x s in
  [/\ l \in x :: s, Qle_bool l x & forall p, p \in s -> Qle_bool l p].
Proof.
elim: s x => [|y s IH] x /=.
  by rewrite mem_head; split=> //; case/orP: (Qle_bool_total x x).
case: (IH (Qminb x y)) => Hin Hle Hall.
have Hx : Qle_bool (Qminb x y) x.
  rewrite /Qminb; case: ifP => [_|Hn]; first by case/orP: (Qle_bool_total x x).
  by case/orP: (Qle_bool_total x y) => //; rewrite Hn.
have Hy : Qle_bool (Qminb x y) y.
  by rewrite /Qminb; case: ifP => // _; case/orP: (Qle_bool_total y y).
split.
- move: Hin; rewrite !in_cons /Qminb; case: ifP => _ /orP [/eqP ->|->];
    by rewrite ?eqxx ?orbT.
- exact: Qle_bool_trans Hle Hx.
- move=> p; rewrite in_cons => /orP [/eqP ->|/Hall //].
  exact: Qle_bool_trans Hle Hy.
Qed.

Lemma reduce_Qmaxb g h : reduce Qmaxb g = Some h -> is_max h g.
Proof.
case: g => [|x s] //= [<-]; case: (foldl_Qmaxb x s) => Hin Hx Hs; split=> // p.
by rewrite in_cons => /orP [/eqP ->|/Hs ?]; apply/Qle_bool_iff.
Qed.

Lemma reduce_Qminb g l : reduce Qminb g = Some l -> is_min l g.
Proof.
case: g => [|x s] //= [<-]; case: (foldl_Qminb x s) => Hin Hx Hs; split=> // p.
by rewrite in_cons => /orP [/eqP ->|/Hs ?]; apply/Qle_bool_iff.
Qed.

Lemma present_some A (s : seq A) : present [seq Some x | x <- s] = s.
Proof. by elim: s => [|x s IH] //=; rewrite /present /= -/(present _) IH. Qed.

Lemma mask_zip_filter A B (a : pred A) (s : seq A) (t : seq B) :
  mask [seq a x | x <- s] t = [seq p.2 | p <- zip s t & a p.1].
Proof.
elim: s t => [|x s IH] [|y t] //=.
by case: (a x) => /=; rewrite IH.
Qed.

Lemma group_some d dates (prices : seq Q) :
  present (group d dates [seq Some p | p <- prices]) = day_prices d dates prices.
Proof. by rewrite /group -map_mask present_some mask_zip_filter. Qed.

Lemma day_prices_nonempty d dates (prices : seq Q) :
  size dates = size prices -> d \in present dates ->
  day_prices d dates prices != [::].
Proof.
move=> Hs Hd; rewrite /day_prices -mask_zip_filter -size_eq0 size_mask ?size_map //.
rewrite count_map -lt0n -has_count.
elim: dates Hd {Hs} => [|[k|] dates IH] //=.
rewrite /present /= -/(present _) in_cons => /orP [/eqP ->|/IH ->].
  by rewrite eqxx.
by rewrite orbT.
Qed.

Lemma all_isSome_map A (v : seq (option A)) :
  all isSome v -> v = [seq Some x | x <- present v].
Proof.
by elim: v => [|[x|] v IH] //= /IH {1}->; rewrite /present /= -/(present _).
Qed.

Lemma holds_number op c : holds op c -> isSome (cell_number c).
Proof. by rewrite /holds; case: cell_number. Qed.

Lemma remove_invalid_price_present df r c v :
  remove_invalid df = Ok r -> lookup "price" (columns r.2) = Some c ->
  numeric_view c = Ok v -> all isSome v.
Proof.
move=> /remove_invalid_inv [p [q [Ep _ _ [ge [gt [/compare0_cells -> _ ->]]]]]].
rewrite /= lookup_map Ep /= => -[<-] /numeric_view_cells ->.
rewrite cells_mask all_map; apply: sub_all (all_mask_and_l _ _ _).
exact: holds_number.
Qed.

Lemma dt_date_size c dates : dt_date c = Ok dates -> size dates = col_size c.
Proof. by case: c => xs //= [<-]; rewrite size_map. Qed.

Lemma numeric_view_size c v : numeric_view c = Ok v -> size v = col_size c.
Proof. by move=> /numeric_view_cells ->; rewrite size_map col_size_cells. Qed.

Lemma groupby_days keys v :
  let days := [seq g.1 | g <- groupby_agg keys v] in
  [/\ sorted Z.leb days, uniq days & days =i present keys].
Proof.
rewrite /groupby_agg -map_comp /= map_id; split.
- exact: sort_sorted Z_leb_total _.
- by rewrite sort_uniq undup_uniq.
- by move=> d; rewrite mem_sort mem_undup.
Qed.

(** ** Further facts about the steps *)

(** A row is dropped by [drop_duplicates] exactly when an earlier row
    equals it: the first occurrence is the one that stays. *)
Lemma duplicated_from_nth seen rs i :
  i < size rs ->
  nth false (duplicated_from seen rs) i =
  has (row_eqb (nth [::] rs i)) (seen ++ take i rs).
Proof.
elim: rs seen i => [|r0 rs IH] seen [|i] //= Hi; first by rewrite cats0.
by rewrite IH // cat_rcons.
Qed.

Lemma duplicated_nth df i :
  i < nrows df ->
  nth false (duplicated df) i = has (row_eqb (row_at df i)) (take i (rows df)).
Proof.
move=> Hi; rewrite /duplicated duplicated_from_nth ?nth_rows //.
by rewrite size_map size_iota.
Qed.

(** Without a guard, an absent column raises. *)
Lemma absent_order_date_raises parse mixed epoch opt df :
  "order_date" \notin column_names df ->
  clean parse mixed epoch opt df = Raise (KeyError "order_date").
Proof.
rewrite /column_names -lookup_names /clean /parse_order_date /getitem.
by case: lookup.
Qed.

Lemma absent_price_raises df :
  "price" \notin column_names df -> remove_invalid df = Raise (KeyError "price").
Proof.
rewrite /column_names -lookup_names /remove_invalid /getitem.
by case: lookup.
Qed.

(** The two column lists. *)
Lemma numeric_cols_not_id df name :
  name \in numeric_cols df -> name \notin id_cols.
Proof. by rewrite mem_filter => /andP []. Qed.

Lemma categorical_cols_objects df name c :
  (name, c) \in columns df -> is_object c -> name \in categorical_cols df.
Proof.
move=> Hin Hc; apply/mapP; exists (name, c) => //.
by rewrite mem_filter Hc.
Qed.

(** When the price and quantity columns hold no missing value, the count of
    line 74 is the number of rows that line 75 removes. *)
Lemma numeric_cells c :
  is_ok (numeric_view c) -> no_missing c ->
  all (fun x => isSome (cell_number x)) (cells c).
Proof.
rewrite /no_missing /isnull_sum; case: c => xs //=.
- by move=> _ _; elim: xs.
- by move=> _; elim: xs => [|[q|] xs IH].
- by case: ifP => // Hn _; elim: xs Hn => [|[[s|t|b]|] xs IH].
- by move=> _ _; elim: xs.
Qed.

Lemma complementary_masks (P Qs : seq cell) :
  all (fun x => isSome (cell_number x)) P ->
  all (fun x => isSome (cell_number x)) Qs ->
  series_or [seq holds lt0 x | x <- P] [seq holds le0 x | x <- Qs] =
  [seq ~~ b | b <- series_and [seq holds ge0 x | x <- P]
                              [seq holds gt0 x | x <- Qs]].
Proof.
rewrite /series_or /series_and.
elim: P Qs => [|x P IH] [|y Qs] //= /andP [Hx HP] /andP [Hy HQ].
rewrite IH //; congr (_ :: _); rewrite /holds /lt0 /gt0 /ge0 /le0.
case: (cell_number x) Hx => // p _; case: (cell_number y) Hy => // q _.
by rewrite negb_and negbK.
Qed.

Lemma remove_invalid_exact df r price quantity :
  wf df -> remove_invalid df = Ok r ->
  lookup "price" (columns df) = Some price -> no_missing price ->
  lookup "quantity" (columns df) = Some quantity -> no_missing quantity ->
  r.1 + nrows r.2 = nrows df.
Proof.
move=> Hwf /remove_invalid_inv [p [q [Ep Eq]]].
move=> [lt [le [Hlt Hle ->]]] [ge [gt [Hge Hgt ->]]].
rewrite Ep Eq => -[<-] Hp [<-] Hq.
have Np := numeric_cells (compare0_numeric Hge) Hp.
have Nq := numeric_cells (compare0_numeric Hgt) Hq.
have Sp := wf_lookup Hwf Ep; have Sq := wf_lookup Hwf Eq.
rewrite (compare0_cells Hlt) (compare0_cells Hle) (compare0_cells Hge).
rewrite (compare0_cells Hgt) complementary_masks //.
set m := series_and _ _.
have Sm : size m = size (index df).
  by rewrite /m /series_and size_map size_zip !size_map Sp Sq minnn.
rewrite /nrows /= size_mask // count_map -Sm -(count_predC id m) addnC.
by congr (_ + _); apply: eq_count.
Qed.

(** ** Rows keep their label and their data *)

Lemma unbox_isna a : isna (unbox a) = isna a.
Proof. by case: a => // -[]. Qed.

Lemma same_value_refl a : same_value a a.
Proof. exact: cell_eqb_refl. Qed.

Lemma same_value_trans : transitive same_value.
Proof. by move=> b a c; exact: cell_eqb_trans. Qed.

Lemma same_value_isna a b : same_value a b -> isna a = isna b.
Proof. by move/cell_eqb_isna; rewrite !unbox_isna. Qed.

Lemma nth_values c i : nth CNaN (values c) i = unbox (nth CNaN (cells c) i).
Proof.
rewrite /values; case: (ltnP i (size (cells c))) => Hi; first exact: nth_map.
by rewrite !nth_default // size_map.
Qed.

Lemma carried_trans B A C : carried A B -> carried B C -> carried A C.
Proof.
move=> HAB HBC k Hk; case: (HBC k Hk) => /= Hj Hv.
set j := seq.index (label_at C k) (index B) in Hj Hv.
have Ej : label_at B j = label_at C k by rewrite /label_at nth_index // -index_mem.
case: (HAB j Hj) => /=; rewrite Ej => Hi Hw; split=> // name Hn.
have Hab := Hw name Hn.
apply: (same_value_trans _ Hab); apply: Hv.
by rewrite (same_value_isna Hab).
Qed.

Lemma carried_select m df : wf df -> carried df (select m df).
Proof.
move=> Hwf j; rewrite /nrows /label_at /= => Hj.
have Hu : uniq (index df) by case/andP: Hwf.
have Hj' : j < size (mask m (iota 0 (size (index df)))).
  by rewrite (@size_mask_same _ _ m _ (index df)) // size_iota.
have Hp := mask_iota_bound Hj'.
rewrite nth_mask_iota // index_uniq //; split=> // name.
rewrite cell_at_select /cell_at; case E: lookup => [c|] // _.
have Sc := wf_lookup Hwf E.
rewrite nth_mask_iota ?Sc; first by rewrite (@size_mask_same _ _ m (cells c) (index df)).
exact: same_value_refl.
Qed.

Lemma carried_columns df df' :
  uniq (index df) -> index df' = index df ->
  (forall name c, lookup name (columns df) = Some c ->
     exists2 c', lookup name (columns df') = Some c'
               & forall i, ~~ isna (nth CNaN (cells c) i) ->
                   same_value (nth CNaN (cells c') i) (nth CNaN (cells c) i)) ->
  carried df df'.
Proof.
move=> Hu Ei H j; rewrite /nrows /label_at Ei => Hj.
rewrite index_uniq //; split=> // name; rewrite /cell_at.
by case E: lookup => [c|] //; case: (H _ _ E) => c' -> Hc; exact: Hc.
Qed.

Lemma fillna_keeps A (f : A -> cell) (v : A) xs i :
  ~~ isna (nth CNaN [seq ocell f x | x <- xs] i) ->
  nth CNaN [seq ocell f x | x <- fillna v xs] i =
  nth CNaN [seq ocell f x | x <- xs] i.
Proof.
case: (ltnP i (size xs)) => Hi; last by rewrite nth_default // size_map.
by rewrite /fillna -map_comp !(nth_map None) //; case: (nth None xs i).
Qed.

Lemma fill_constant_keeps c i :
  ~~ isna (nth CNaN (cells c) i) ->
  same_value (nth CNaN (cells (fill_constant c)) i) (nth CNaN (cells c) i).
Proof.
case: c => xs /=; try by move=> _; exact: same_value_refl.
- by move=> /(fillna_keeps 0%Q) ->; exact: same_value_refl.
- by move=> /(fillna_keeps (PStr unknown)) ->; exact: same_value_refl.
- case: ifP => _; last by move=> _; exact: same_value_refl.
  case: (ltnP i (size xs)) => Hi; last by rewrite nth_default // size_map.
  rewrite /= -map_comp !(nth_map None) //; case: (nth None xs i) => //= t _.
  by rewrite /same_value /= Z.eqb_refl.
Qed.

Lemma fill_central_keeps c c' i :
  fill_central c = Ok c' -> ~~ isna (nth CNaN (cells c) i) ->
  same_value (nth CNaN (cells c') i) (nth CNaN (cells c) i).
Proof.
case: c => xs /=.
- by case=> <- _; exact: same_value_refl.
- case=> <-; case: median => [m|] /=; last by move=> _; exact: same_value_refl.
  by move=> /(fillna_keeps m) ->; exact: same_value_refl.
- move=> /bind_ok [m _] /= [<-]; case: ifP => _; last by move=> _; exact: same_value_refl.
  move=> Hn; rewrite /same_value -nth_values values_downcast nth_values /=.
  by rewrite (fillna_keeps m Hn); exact: cell_eqb_refl.
- by move=> /bind_ok [m _] /= [<-] _; exact: same_value_refl.
- move=> /bind_ok [m _] /= [<-].
  by move=> /(fillna_keeps m) ->; exact: same_value_refl.
Qed.

Lemma carried_handle_missing opt df df' :
  wf df -> handle_missing opt df = Ok df' -> carried df df'.
Proof.
move=> Hwf; have Hu : uniq (index df) by case/andP: Hwf.
case: opt => /=.
- by case=> <-; exact: carried_select.
- move=> /bind_ok [cs Hm] /= [<-]; apply: carried_columns => //= name c Ec.
  move: (lookup_mapM name Hm); rewrite Ec => -[c' Hf Ec'].
  by exists c' => // i; exact: fill_central_keeps Hf.
- case=> <-; apply: carried_columns => //= name c Ec.
  rewrite lookup_map Ec /=; eexists; first by [].
  by move=> i; exact: fill_constant_keeps.
Qed.

Lemma carried_clean parse mixed epoch opt df0 df1 r :
  wf df0 -> parse_order_date parse mixed epoch df0 = Ok df1 ->
  clean parse mixed epoch opt df0 = Ok r -> carried df1 (cleaned r).
Proof.
move=> Hwf H1 /clean_inv [df1' [df3 [H1' H3 H4]]].
move: H1' H3; rewrite H1 => -[<-] H3.
have Hwf1 := wf_parse_order_date H1 Hwf.
have Hwf2 : wf (drop_duplicates df1) by exact: wf_select.
have Hwf3 := wf_handle_missing H3 Hwf2.
apply: (@carried_trans (drop_duplicates df1)); first exact: carried_select.
apply: (@carried_trans df3); first exact: carried_handle_missing H3.
case: (remove_invalid_inv H4) => p [q [_ _ _ [ge [gt [_ _ /= ->]]]]].
exact: carried_select.
Qed.

(** ** Calendar days *)

Lemma on_dayE d x :
  on_day d x = (omap (fun t => Z.div t ns_per_day) x == Some d).
Proof.
case: x => [t|] //=.
have Hn : (0 < ns_per_day)%Z by [].
have H1 := Z.mul_div_le t _ Hn; have H2 := Z.mul_succ_div_gt t _ Hn.
move: H1 H2; move: ns_per_day Hn (Z.div t _) => n Hn q H1 H2.
apply/idP/idP.
- move=> /andP [/Z.leb_le Ha /Z.ltb_lt Hb]; apply/eqP; congr Some; nia.
- move=> /eqP [<-]; apply/andP; split; [apply/Z.leb_le|apply/Z.ltb_lt]; nia.
Qed.

Lemma day_prices_on d ts (prices : seq Q) :
  day_prices d [seq omap (fun t => Z.div t ns_per_day) x | x <- ts] prices =
  prices_on d ts prices.
Proof.
rewrite /day_prices /prices_on.
elim: ts prices => [|x ts IH] [|p prices] //=.
by rewrite on_dayE; case: ifP => _ /=; rewrite IH.
Qed.

Lemma mem_present_days d ts :
  (d \in present [seq omap (fun t => Z.div t ns_per_day) x | x <- ts]) =
  has (on_day d) ts.
Proof.
elim: ts => [|[t|] ts IH] //=; rewrite /present /= -/(present _) ?in_cons IH //.
by congr (_ || _); rewrite -/(on_day d (Some t)) on_dayE /= eq_sym.
Qed.

(** * The claims *)

Section Claims.

Variable parse : seq (option pyobj) -> string -> option Z.
Variable mixed : seq (option pyobj) -> bool.
Variable epoch : Q -> option Z.

(** C1.  Whenever the cleaning stage completes, under any of the three
    strategies, every row of the cleaned table holds a number [>= 0] in
    [price] and a number [> 0] in [quantity]. *)
Theorem cleaned_rows_valid opt df0 r :
  wf df0 -> clean parse mixed epoch opt df0 = Ok r ->
  forall i, i < nrows (cleaned r) ->
    nonnegative (cell_at (cleaned r) "price" i) /\
    positive_number (cell_at (cleaned r) "quantity" i).
Proof.
move=> Hwf /clean_inv [df1 [df3 [H1 H3 H4]]].
have Hwf3 : wf df3.
  by apply: (wf_handle_missing H3); apply: wf_select;
     apply: (wf_parse_order_date H1).
case: (remove_invalid_inv H4) => price [quantity [Ep Eq _]] /=.
move=> [ge [gt [/compare0_cells -> /compare0_cells -> ->]]] i.
rewrite !cell_at_select Ep Eq => Hi; split.
- apply: holds_ge0; move: Hi; rewrite (nrows_select _ Hwf3 Ep).
  by move: i; apply/all_nthP; exact: all_mask_and_l.
- apply: holds_gt0; move: Hi; rewrite (nrows_select _ Hwf3 Eq).
  by move: i; apply/all_nthP; exact: all_mask_and_r.
Qed.

(** C2.  The invalid-row filter runs after missing-value handling.  Under
    the constant fill, a row of the deduplicated table whose quantity is
    missing gets quantity 0 and is removed by the filter, whatever its
    price; a row whose price is missing and whose quantity is a positive
    number gets price 0 and is kept. *)
Theorem constant_fill_asymmetry df0 df1 r i :
  wf df0 ->
  parse_order_date parse mixed epoch df0 = Ok df1 ->
  clean parse mixed epoch FillConstant df0 = Ok r ->
  let df2 := drop_duplicates df1 in
  i < nrows df2 ->
  exists df3,
    [/\ handle_missing FillConstant df2 = Ok df3,
        remove_invalid df3 = Ok (invalid_rows r, cleaned r),
        cell_at df2 "quantity" i = CNaN ->
          cell_at df3 "quantity" i = CFloat 0 /\
          label_at df2 i \notin index (cleaned r)
      & cell_at df2 "price" i = CNaN ->
        positive_number (cell_at df2 "quantity" i) ->
          [/\ cell_at df3 "price" i = CFloat 0,
              label_at df2 i \in index (cleaned r)
            & cell_at (cleaned r) "price"
                (seq.index (label_at df2 i) (index (cleaned r))) = CFloat 0]].
Proof.
move=> Hwf H1 /clean_inv [df1' [df3 [H1' H3 H4]]] df2 Hi.
move: H1' H3; rewrite H1 => -[<-]; rewrite -/df2 => H3.
have Hwf2 : wf df2 by apply: wf_select; apply: (wf_parse_order_date H1).
clearbody df2.
have Hwf3 := wf_handle_missing H3 Hwf2.
have Hu : uniq (index df2) by case/andP: Hwf2.
exists df3; move: (H3) => /= -[E3].
have Ei : index df3 = index df2 by rewrite -E3.
have En : nrows df3 = nrows df2 by rewrite /nrows Ei.
have Lk name : lookup name (columns df3) =
               omap fill_constant (lookup name (columns df2)).
  by rewrite -E3 /= lookup_map.
case: (remove_invalid_inv H4) => p3 [q3 [Ep Eq _ [ge [gt [Hge Hgt /= Er]]]]].
have Hpok := compare0_numeric Hge; have Hqok := compare0_numeric Hgt.
have Sp := wf_lookup Hwf3 Ep; have Sq := wf_lookup Hwf3 Eq.
move: Hge Hgt => /compare0_cells Ege /compare0_cells Egt.
have Hm : nth false (series_and ge gt) i =
          holds ge0 (nth CNaN (cells p3) i) && holds gt0 (nth CNaN (cells q3) i).
  by rewrite nth_series_and Ege Egt !(nth_map CNaN) ?Sp ?Sq ?En.
have [p2 Ep2 Ep3] : exists2 p2, lookup "price" (columns df2) = Some p2
                              & p3 = fill_constant p2.
  by move: Ep; rewrite Lk; case: lookup => [p2|] //= [<-]; exists p2.
have [q2 Eq2 Eq3] : exists2 q2, lookup "quantity" (columns df2) = Some q2
                              & q3 = fill_constant q2.
  by move: Eq; rewrite Lk; case: lookup => [q2|] //= [<-]; exists q2.
have Hip : i < col_size p2.
  by rewrite -fill_constant_size -Ep3 col_size_cells Sp En.
have Hiq : i < col_size q2.
  by rewrite -fill_constant_size -Eq3 col_size_cells Sq En.
rewrite Ep3 in Hpok Hm Ep Sp; rewrite Eq3 in Hqok Hm Eq Sq.
split=> //.
- rewrite {1}/cell_at Eq2 => Hnan.
  have E0 := fill_constant_nan Hqok Hiq Hnan; split.
    by rewrite /cell_at Eq.
  by rewrite Er /= Ei /label_at mem_mask_nth // Hm E0 andbF.
- rewrite /positive_number {1 2}/cell_at Ep2 Eq2 /= => Hnan [q Hq Hpos].
  have E0 := fill_constant_nan Hpok Hip Hnan.
  have Eq0 := fill_constant_number Hq.
  have Hmi : nth false (series_and ge gt) i.
    rewrite Hm E0 Eq0 /holds Hq /= /gt0.
    by apply/negP => /Qle_bool_iff /Qle_not_lt.
  split.
  + by rewrite /cell_at Ep.
  + by rewrite Er /= Ei /label_at mem_mask_nth.
  + rewrite Er cell_at_select Ep /= Ei /label_at.
    by rewrite nth_mask_index // Sp En.
Qed.


(** C6.  On the cleaned table the candlestick aggregation makes one group
    per calendar day of [order_date] (the timestamps from one midnight to
    the next), days in ascending order, and for each day reports open = the
    first price of that day in row order, close = the last one, high = the
    largest and low = the smallest price of the day.  Same-day prices 10,
    15, 8, 12 give open 10, high 15, low 8, close 12. *)
Theorem daily_open_high_low_close opt df0 r out :
  wf df0 ->
  clean parse mixed epoch opt df0 = Ok r ->
  daily (cleaned r) = Ok (Some out) ->
  (exists ts prices,
    [/\ lookup "order_date" (columns (cleaned r)) = Some (Datetime64 ts),
        (c <-- getitem (cleaned r) "price" ;; numeric_view c) =
          Ok [seq Some p | p <- prices],
        size ts = size prices,
        [/\ sorted Z.leb [seq g.1 | g <- out], uniq [seq g.1 | g <- out]
          & forall d, (d \in [seq g.1 | g <- out]) = has (on_day d) ts]
      & forall d o, (d, o) \in out ->
          exists p0 g,
            [/\ prices_on d ts prices = p0 :: g,
                open o = Some p0, close o = Some (last p0 g),
                exists2 h, high o = Some h & is_max h (p0 :: g)
              & exists2 l, low o = Some l & is_min l (p0 :: g)]]) /\
  daily same_day =
    Ok (Some [:: (19723%Z, mkOhlc (Some 10) (Some 15) (Some 8) (Some 12))%Q]).
Proof.
move=> Hwf Hc Hd; split; last by vm_compute.
have Hwfr := wf_clean Hc Hwf.
case/clean_inv: Hc => df1 [df3 [_ _ H4]].
move: Hd; rewrite /daily; case: ifP => // _.
rewrite /getitem; case Eod: (lookup "order_date") => [od|] //=.
move=> /bind_ok [dates Hdates] /=; case Epr: (lookup "price") => [pr|] //=.
move=> /bind_ok [v Hv] /= [Eout].
have Hsome : all isSome v := remove_invalid_price_present H4 Epr Hv.
have := all_isSome_map Hsome; move: (present v) => prices Ev.
move: Hv Eout; rewrite {v Hsome}Ev => Hv Eout.
have Hsz : size dates = size prices.
  rewrite (dt_date_size Hdates) col_size_cells (wf_lookup Hwfr Eod).
  rewrite -(wf_lookup Hwfr Epr) -col_size_cells -(numeric_view_size Hv).
  by rewrite size_map.
case: od Hdates Eod => // ts [Edates] Eod.
move: Hsz Eout; rewrite -{dates}Edates => Hsz Eout.
exists ts, prices; split=> //.
- by rewrite -Hsz size_map.
- case: (groupby_days [seq omap (Z.div^~ ns_per_day) x | x <- ts]
                      [seq Some p | p <- prices]) => /=.
  by rewrite Eout => Hs Hu Hm; split=> // d; rewrite Hm mem_present_days.
- move=> d o; rewrite -Eout => /mapP [d' Hd' [-> ->]].
  have Hin : d' \in present [seq omap (Z.div^~ ns_per_day) x | x <- ts].
    by move: Hd'; rewrite mem_sort mem_undup.
  rewrite /agg !group_some.
  case Eg: (day_prices d' _ prices) (day_prices_nonempty Hsz Hin)
    => [|p0 g] // _.
  exists p0, g; split=> //=; first by rewrite -day_prices_on.
  + by eexists; first by []; apply: reduce_Qmaxb.
  + by eexists; first by []; apply: reduce_Qminb.
Qed.

(** C7 (amended).  After missing-value handling no column holds a missing
    value, with one exception: under the central-tendency fill a float
    column whose median is itself missing is left as it was.  Such a column
    has no value at all, or has the two infinities as its two middle values
    (their mean is NaN). *)
Theorem missing_values_after_handling opt df df' :
  handle_missing opt df = Ok df' ->
  forall name c', (name, c') \in columns df' ->
    no_missing c' \/
    [/\ opt = FillMeanMedianMode, (name, c') \in columns df,
        dtype_of c' = float64 & all_missing c' \/ infinite_middles c'].
Proof.
case: opt => /=.
- by case=> <- name c' /dropna_no_missing; left.
- move=> /bind_ok [cs Hm] /= [<-] name c' /= /(in_mapM Hm) [c Hc].
  case/fill_central_no_missing => [|[-> [xs Ec Ha]]]; first by left.
  by right; split=> //; rewrite Ec.
- case=> <- name c' /= /mapP [[n c] _ [_ ->]]; left.
  exact: fill_constant_no_missing.
Qed.

(** C8 (amended).  Date coercion never raises: it only needs the column
    to be there.  The cleaning stage completes whenever [order_date],
    [price] and [quantity] are present, [price] and [quantity] are int,
    float or bool columns and, under the central-tendency fill, every column
    that is not int or float has at least one value left once the dates are
    coerced. *)
Theorem clean_completes opt df0 df1 price quantity :
  wf df0 ->
  parse_order_date parse mixed epoch df0 = Ok df1 ->
  lookup "price" (columns df0) = Some price -> comparable price ->
  lookup "quantity" (columns df0) = Some quantity -> comparable quantity ->
  (opt = FillMeanMedianMode ->
   forall name c, (name, c) \in columns df1 -> is_number c || has_value c) ->
  is_ok (clean parse mixed epoch opt df0) /\
  (forall df, "order_date" \in column_names df ->
              is_ok (parse_order_date parse mixed epoch df)).
Proof.
move=> Hwf H1 Ep Hp Eq Hq Hfill; split; last first.
  move=> df; rewrite /column_names -lookup_names /parse_order_date /getitem.
  by case: lookup.
have Hwf1 := wf_parse_order_date H1 Hwf.
have Hok := handle_missing_ok Hwf1 Hfill.
rewrite /clean H1 /=.
case H3: handle_missing Hok => [df3|] //= _.
have Lk name : name != "order_date" ->
    lookup name (columns (drop_duplicates df1)) =
    omap (mask_col [seq ~~ b | b <- duplicated df1]) (lookup name (columns df0)).
  move=> Hne; rewrite /= lookup_map; congr omap.
  move: H1 => /bind_ok [od _] /= [<-] /=; rewrite lookup_assign.
  by have -> : String.eqb name "order_date" = false by exact: negbTE.
have [p3 Ep3 Hp3] : exists2 c, lookup "price" (columns df3) = Some c & comparable c.
  apply: (lookup_handle_missing H3); first by rewrite Lk // Ep.
  by rewrite comparable_mask.
have [q3 Eq3 Hq3] : exists2 c, lookup "quantity" (columns df3) = Some c & comparable c.
  apply: (lookup_handle_missing H3); first by rewrite Lk // Eq.
  by rewrite comparable_mask.
by case: remove_invalid (remove_invalid_ok Ep3 Hp3 Eq3 Hq3).
Qed.

(** C10.  The rows that survive cleaning keep their relative order and
    their data.  The labels of the cleaned table are a subsequence of the
    labels of the uploaded table, so with the row numbers given by
    [read_csv] they are increasing; and the row of the cleaned table at
    position [j] is the uploaded row of the same label: every value that row
    held once the dates are coerced is the value found at position [j]. *)
Theorem cleaning_keeps_row_order opt df0 df1 r :
  wf df0 ->
  parse_order_date parse mixed epoch df0 = Ok df1 ->
  clean parse mixed epoch opt df0 = Ok r ->
  [/\ subseq (index (cleaned r)) (index df0),
      forall n, index df0 = iota 0 n -> sorted ltn (index (cleaned r)),
      index df1 = index df0 /\
      (forall name i, name != "order_date" ->
         cell_at df1 name i = cell_at df0 name i)
    & forall j, j < nrows (cleaned r) ->
        let i := seq.index (label_at (cleaned r) j) (index df0) in
        i < nrows df0 /\
        forall name, ~~ isna (cell_at df1 name i) ->
          same_value (cell_at (cleaned r) name j) (cell_at df1 name i)].
Proof.
move=> Hwf H1 Hc; have Hs := index_clean Hc.
have Ei := index_parse_order_date H1; split=> //.
- move=> n En; apply: (subseq_sorted ltn_trans Hs); rewrite En.
  exact: iota_ltn_sorted.
- by split=> // name i Hne; rewrite /cell_at (lookup_parse_order_date H1).
- by move=> j /(carried_clean Hwf H1 Hc); rewrite /nrows Ei.
Qed.

End Claims.

(** ** Instances on the sample upload *)

Lemma cleaned_rows_valid_witness :
  exists2 r, sample_clean FillMeanMedianMode = Ok r &
    forall i, i < nrows (cleaned r) ->
      nonnegative (cell_at (cleaned r) "price" i) /\
      positive_number (cell_at (cleaned r) "quantity" i).
Proof.
eexists; first by vm_compute; reflexivity.
apply: (@cleaned_rows_valid sample_parse sample_mixed sample_epoch FillMeanMedianMode sample).
- by vm_compute.
- by vm_compute; reflexivity.
Defined.

Lemma cleaning_keeps_row_order_witness :
  [/\ subseq (index (cleaned sample_constant)) (index sample),
      forall n, index sample = iota 0 n ->
        sorted ltn (index (cleaned sample_constant)),
      index sample_parsed = index sample /\
      (forall name i, name != "order_date" ->
         cell_at sample_parsed name i = cell_at sample name i)
    & forall j, j < nrows (cleaned sample_constant) ->
        let i := seq.index (label_at (cleaned sample_constant) j)
                           (index sample) in
        i < nrows sample /\
        forall name, ~~ isna (cell_at sample_parsed name i) ->
          same_value (cell_at (cleaned sample_constant) name j)
                     (cell_at sample_parsed name i)].
Proof.
apply: (@cleaning_keeps_row_order sample_parse sample_mixed sample_epoch
          FillConstant sample sample_parsed sample_constant).
- by vm_compute.
- by vm_compute.
- by vm_compute.
Defined.

Lemma constant_fill_asymmetry_witness :
  let df2 := drop_duplicates sample_parsed in
  [/\ cell_at df2 "quantity" 2 = CNaN,
      label_at df2 2 \notin index (cleaned sample_constant),
      cell_at df2 "price" 1 = CNaN,
      label_at df2 1 \in index (cleaned sample_constant)
    & cell_at (cleaned sample_constant) "price"
        (seq.index (label_at df2 1) (index (cleaned sample_constant))) =
      CFloat 0].
Proof.
move=> df2.
have Hwf : wf sample by vm_compute.
have H1 : parse_order_date sample_parse sample_mixed sample_epoch sample = Ok sample_parsed.
  by vm_compute.
have Hc : clean sample_parse sample_mixed sample_epoch FillConstant sample = Ok sample_constant.
  by vm_compute.
have H2 : 2 < nrows df2 by vm_compute.
have H3 : 1 < nrows df2 by vm_compute.
have Eq : cell_at df2 "quantity" 2 = CNaN by vm_compute.
have Ep : cell_at df2 "price" 1 = CNaN by vm_compute.
have Hq : positive_number (cell_at df2 "quantity" 1).
  by exists 2%Q; vm_compute.
case: (constant_fill_asymmetry Hwf H1 Hc H2) => _ [_ _ /(_ Eq) [_ Hout] _].
case: (constant_fill_asymmetry Hwf H1 Hc H3) => _ [_ _ _ /(_ Ep Hq) [_ Hin E0]].
by split.
Defined.


Lemma daily_open_high_low_close_witness :
  let o := mkOhlc (Some 10%Q) (Some 10%Q) (Some 3%Q) (Some 3%Q) in
  exists ts prices p0 g,
    [/\ lookup "order_date" (columns (cleaned sample_central)) =
          Some (Datetime64 ts),
        prices_on 19723 ts prices = p0 :: g,
        open o = Some p0 /\ close o = Some (last p0 g),
        exists2 h, high o = Some h & is_max h (p0 :: g)
      & exists2 l, low o = Some l & is_min l (p0 :: g)].
Proof.
move=> o.
have Hwf : wf sample by vm_compute.
have Hc : clean sample_parse sample_mixed sample_epoch FillMeanMedianMode sample =
          Ok sample_central by vm_compute.
have Hd : daily (cleaned sample_central) = Ok (Some sample_daily) by vm_compute.
have Ho : (19723%Z, o) \in sample_daily by vm_compute.
case: (daily_open_high_low_close Hwf Hc Hd) => -[ts [prices [Ets _ _ _ H]]] _.
case: (H _ _ Ho) => p0 [g [H0 H1 H2 H3 H4]].
exists ts, prices, p0, g.
exact: (And5 Ets H0 (conj H1 H2) H3 H4).
Defined.

Lemma missing_values_after_handling_witness :
  no_missing (Float64 [:: None]) \/
  [/\ FillMeanMedianMode = FillMeanMedianMode,
      ("quantity", Float64 [:: None]) \in columns blank_quantity,
      dtype_of (Float64 [:: None]) = float64
    & all_missing (Float64 [:: None]) \/ infinite_middles (Float64 [:: None])].
Proof.
apply: (@missing_values_after_handling FillMeanMedianMode blank_quantity
          blank_quantity).
- by vm_compute.
- by vm_compute.
Defined.

Lemma clean_completes_witness :
  is_ok (sample_clean FillMeanMedianMode) /\
  (forall df, "order_date" \in column_names df ->
              is_ok (parse_order_date sample_parse sample_mixed sample_epoch df)).
Proof.
apply: (@clean_completes sample_parse sample_mixed sample_epoch FillMeanMedianMode sample
          sample_parsed
          (Float64 [:: Some 10; None; Some 8; Some 8; Some 3; Some (-4)%Q]%Q)
          (Float64 [:: Some 1; Some 2; None; None; Some 1; Some 2]%Q)).
- by vm_compute.
- by vm_compute.
- by vm_compute.
- by [].
- by vm_compute.
- by [].
- move=> _ name c; rewrite /sample_parsed /= !inE.
  by do 4![case/orP=> [/eqP [_ ->] //|]]; move/eqP=> [_ ->].
Defined.

(** ** Inputs on which the claims fail *)

(** C7 as stated fails: a float column that is blank throughout is still
    blank after the central-tendency fill. *)
Lemma blank_column_stays_missing :
  ~ no_missing_after FillMeanMedianMode blank_quantity.
Proof.
move=> /(_ blank_quantity) H.
have: handle_missing FillMeanMedianMode blank_quantity = Ok blank_quantity.
  by vm_compute.
by move/H; vm_compute.
Qed.

(** The other exception of C7: with both infinities in the column the median
    is NaN and the blank stays. *)
Lemma opposite_infinities_stay_missing :
  handle_missing FillMeanMedianMode both_infinities = Ok both_infinities.
Proof. by vm_compute. Qed.


(** C8 as stated fails: with every date blank, [df[col].mode()[0]] raises on
    the [order_date] column, which holds no value. *)
Lemma blank_dates_raise :
  clean sample_parse sample_mixed sample_epoch FillMeanMedianMode blank_dates =
  Raise ModeKeyError.
Proof. by vm_compute. Qed.

(** The same holds whatever the two conversions of [pd.to_datetime] are. *)
Lemma blank_dates_raise_always parse mixed epoch :
  clean parse mixed epoch FillMeanMedianMode blank_dates = Raise ModeKeyError.
Proof. by []. Qed.

(** C4.  The code has no guard for an absent column: line 21 and line 74
    raise KeyError, under every strategy. *)
Theorem absent_columns_raise opt :
  [/\ clean sample_parse sample_mixed sample_epoch opt no_order_date =
        Raise (KeyError "order_date"),
      clean sample_parse sample_mixed sample_epoch opt no_price = Raise (KeyError "price")
    & clean sample_parse sample_mixed sample_epoch opt no_quantity =
        Raise (KeyError "quantity")].
Proof. by case: opt; split; vm_compute. Qed.

(** C5.  [categorical_cols] is not filtered by [id_cols]: an identifier
    column holding text is listed as categorical, while [numeric_cols]
    leaves identifiers out. *)
Theorem text_identifier_is_categorical :
  exists2 r, clean sample_parse sample_mixed sample_epoch DropRows text_ids = Ok r &
    [/\ "order_id" \in id_cols,
        categorical_cols (cleaned r) = [:: "order_id"; "category"]
      & numeric_cols (cleaned r) = [:: "price"; "quantity"]].
Proof. by eexists; first by vm_compute; reflexivity. Qed.

(** C9.  With a blank quantity column under the central-tendency fill the
    only row is removed by the filter of line 75 although its price is 5 and
    its quantity is not a number [<= 0], and line 74 counts 0 invalid rows. *)
Theorem blank_quantity_row_uncounted :
  clean sample_parse sample_mixed sample_epoch FillMeanMedianMode blank_quantity =
  Ok (mkCleaning 0
        [:: ("order_id", 0); ("order_date", 0); ("price", 0); ("quantity", 1)]
        [:: ("order_id", 0); ("order_date", 0); ("price", 0); ("quantity", 1)]
        0
        (mkDataFrame [::]
           [:: ("order_id", Int64 [::]); ("order_date", Datetime64 [::]);
               ("price", Float64 [::]); ("quantity", Float64 [::])])) /\
  nrows blank_quantity = 1.
Proof. by split; vm_compute. Qed.

(** * Further properties of the script *)

(** ** Column names and types through the steps *)

Lemma names_assign name c (cs : seq (string * column)) :
  lookup name cs -> [seq nc.1 | nc <- assign name c cs] = [seq nc.1 | nc <- cs].
Proof.
elim: cs => [|[n c0] cs IH] //=.
by case E: (String.eqb n name) => //= /IH ->.
Qed.

Lemma names_select m df : column_names (select m df) = column_names df.
Proof. by rewrite /column_names /= -map_comp. Qed.

Lemma names_handle_missing opt df df' :
  handle_missing opt df = Ok df' -> column_names df' = column_names df.
Proof.
case: opt => /=.
- by case=> <-; exact: names_select.
- by move=> /bind_ok [cs Hm] /= [<-]; exact: names_mapM Hm.
- by case=> <-; rewrite /column_names /= -map_comp.
Qed.

Lemma dtype_of_mask m c : dtype_of (mask_col m c) = dtype_of c.
Proof. by case: c. Qed.

Lemma mode_object_mem s m : first_mode (mode_object s) = Ok m -> m \in s.
Proof.
rewrite /mode_object; case: ifP => _.
  by case/(first_mode_frequent pyobj_eqbE pyobj_leb_total pyobj_leb_trans) => -[].
by case/(first_modes_frequent pyobj_eqbE).
Qed.

Lemma text_column_mask m c : text_column c -> text_column (mask_col m c).
Proof. by case: c => //= xs; exact: all_mask. Qed.

Lemma text_not_downcast s xs :
  has missing xs -> downcast_object (fillna (PStr s) xs) = Object (fillna (PStr s) xs).
Proof.
move=> H; rewrite /downcast_object.
suff -> : all is_pybool (fillna (PStr s) xs) = false by [].
by elim: xs H => [|[o|] xs IH] //= /IH ->; rewrite andbF.
Qed.

Lemma dtype_fill_central c c' :
  comparable c || text_column c -> fill_central c = Ok c' ->
  dtype_of c' = dtype_of c.
Proof.
case: c => xs //=.
- by move=> _ [<-].
- by move=> _ [<-].
- move=> Ht /bind_ok [m Hm] /= [<-]; case: ifP => // Hmis.
  have: Some m \in xs by rewrite -[xs]map_id -mem_pmap; exact: mode_object_mem.
  by move/(allP Ht); case: m {Hm} => //= s _; rewrite text_not_downcast.
- by move=> _ /bind_ok [m _] /= [<-].
Qed.

Lemma dtype_fill_constant c :
  dtype_of c <> datetime64 -> dtype_of (fill_constant c) = dtype_of c.
Proof. by case: c. Qed.

Lemma dtype_handle_missing opt df df' name c :
  handle_missing opt df = Ok df' -> lookup name (columns df) = Some c ->
  comparable c || text_column c ->
  exists2 c', lookup name (columns df') = Some c' & dtype_of c' = dtype_of c.
Proof.
case: opt => /=.
- case=> <- /= Ec _; rewrite lookup_map Ec /=.
  by eexists; first by []; exact: dtype_of_mask.
- move=> /bind_ok [cs Hm] /= [<-] /= Ec Hc.
  move: (lookup_mapM name Hm); rewrite Ec => -[c' Hf Ec'].
  by exists c' => //; exact: dtype_fill_central Hf.
- case=> <- /= Ec Hd; rewrite lookup_map Ec /=.
  by eexists; first by []; apply: dtype_fill_constant; case: (c) Hd.
Qed.

(** ** When the fill raises *)

Lemma mapM_okE A B (f : A -> result B) (s : seq A) :
  is_ok (mapM f s) = all (fun a => is_ok (f a)) s.
Proof.
elim: s => [|a s IH] //=; case: (f a) => [b|e] //=.
by rewrite -IH; case: (mapM f s).
Qed.

Lemma present_all_missing (A : eqType) (f : A -> cell) (xs : seq (option A)) :
  (forall a, ~~ isna (f a)) ->
  ~~ has (predC isna) [seq ocell f x | x <- xs] -> present xs = [::].
Proof.
by move=> Hf; elim: xs => [|[a|] xs IH] //=; rewrite Hf.
Qed.

Lemma fill_central_okE c : is_ok (fill_central c) = is_number c || has_value c.
Proof.
apply/idP/idP; last exact: fill_central_ok.
apply: contraTT; rewrite negb_or => /andP [Hn Hv].
case: c Hn Hv => xs //= _; rewrite /has_value /=.
- by move=> /(@present_all_missing _ CObj _ (fun=> isT)) ->.
- by case: xs.
- by move=> /(@present_all_missing _ CTime _ (fun=> isT)) ->.
Qed.

(** ** The two masks of lines 74-75 *)

Lemma exclusive_masks (P Qs : seq cell) :
  count id (series_or [seq holds lt0 x | x <- P] [seq holds le0 x | x <- Qs]) +
  count id (series_and [seq holds ge0 x | x <- P] [seq holds gt0 x | x <- Qs])
  <= size (zip P Qs).
Proof.
rewrite /series_or /series_and.
elim: P Qs => [|x P IH] [|y Qs] //=.
rewrite addnACA -[(size _).+1]add1n; apply: leq_add; last exact: IH.
rewrite /holds /lt0 /le0 /ge0 /gt0.
by case: (cell_number x) => [p|]; case: (cell_number y) => [q|] //=;
   do ?[case: (Qle_bool _ _) => //=].
Qed.

Lemma size_series_and a b : size (series_and a b) = minn (size a) (size b).
Proof. by rewrite /series_and size_map size_zip. Qed.

Lemma remove_invalid_bound df r :
  wf df -> remove_invalid df = Ok r -> r.1 + nrows r.2 <= nrows df.
Proof.
move=> Hwf /remove_invalid_inv [p [q [Ep Eq]]].
move=> [lt [le [Hlt Hle ->]]] [ge [gt [Hge Hgt ->]]].
have Sp := wf_lookup Hwf Ep; have Sq := wf_lookup Hwf Eq.
rewrite (compare0_cells Hlt) (compare0_cells Hle) (compare0_cells Hge).
rewrite (compare0_cells Hgt).
have -> : nrows (select (series_and [seq holds ge0 x | x <- cells p]
                                    [seq holds gt0 x | x <- cells q]) df) =
          count id (series_and [seq holds ge0 x | x <- cells p]
                               [seq holds gt0 x | x <- cells q]).
  by rewrite /nrows /= size_mask // size_series_and !size_map Sp Sq minnn.
apply: leq_trans (exclusive_masks _ _) _.
by rewrite size_zip Sp Sq minnn.
Qed.

Section Further.

Variable parse : seq (option pyobj) -> string -> option Z.
Variable mixed : seq (option pyobj) -> bool.
Variable epoch : Q -> option Z.

(** All the fields of the report, step by step. *)
Lemma clean_report opt df0 r :
  clean parse mixed epoch opt df0 = Ok r ->
  exists df1 df3,
    [/\ parse_order_date parse mixed epoch df0 = Ok df1,
        handle_missing opt (drop_duplicates df1) = Ok df3,
        remove_invalid df3 = Ok (invalid_rows r, cleaned r),
        removed_duplicates r = nrows df1 - nrows (drop_duplicates df1)
      & missing_before r = isnull_sums (drop_duplicates df1) /\
        missing_after r = isnull_sums df3].
Proof.
rewrite /clean => /bind_ok [df1 H1] /= /bind_ok [df3 H3] /=.
move=> /bind_ok [[n df4] H4] /= [<-] /=.
by exists df1, df3.
Qed.

Lemma names_parse_order_date df df' :
  parse_order_date parse mixed epoch df = Ok df' -> column_names df' = column_names df.
Proof.
rewrite /parse_order_date /getitem; case E: lookup => [c|] //= [<-].
by rewrite /column_names /= names_assign ?E.
Qed.

(** X1.  Cleaning only removes rows: the cleaned table never has more rows
    than the upload. *)
Theorem cleaning_never_adds_rows opt df0 r :
  clean parse mixed epoch opt df0 = Ok r -> nrows (cleaned r) <= nrows df0.
Proof. by move=> /index_clean /size_subseq. Qed.

Lemma names_clean opt df0 r :
  clean parse mixed epoch opt df0 = Ok r ->
  column_names (cleaned r) = column_names df0.
Proof.
move=> /clean_inv [df1 [df3 [H1 H3 H4]]].
case: (remove_invalid_inv H4) => p [q [_ _ _ [ge [gt [_ _ /= ->]]]]].
rewrite names_select (names_handle_missing H3) names_select.
exact: names_parse_order_date H1.
Qed.

(** X2.  Cleaning never adds, drops, renames or reorders a column. *)
Theorem cleaning_keeps_columns opt df0 r :
  clean parse mixed epoch opt df0 = Ok r ->
  column_names (cleaned r) = column_names df0.
Proof. exact: names_clean. Qed.

(** X3.  Apart from [order_date], every int64, float64 or bool column and
    every object column of text keeps its dtype through cleaning, whatever
    the strategy: the fills never turn a number into text or text into a
    number.  (An object column of Python bools does not: filled with its
    mode it becomes a bool column.) *)
Theorem cleaning_keeps_dtypes opt df0 r name c :
  clean parse mixed epoch opt df0 = Ok r ->
  name != "order_date" ->
  lookup name (columns df0) = Some c -> comparable c || text_column c ->
  exists2 c', lookup name (columns (cleaned r)) = Some c'
            & dtype_of c' = dtype_of c.
Proof.
move=> /clean_inv [df1 [df3 [H1 H3 H4]]] Hne Ec Hd.
have E2 : lookup name (columns (drop_duplicates df1)) =
          Some (mask_col [seq ~~ b | b <- duplicated df1] c).
  by rewrite /= lookup_map (lookup_parse_order_date H1 Hne) Ec.
have Hd2 : comparable (mask_col [seq ~~ b | b <- duplicated df1] c) ||
           text_column (mask_col [seq ~~ b | b <- duplicated df1] c).
  by case/orP: Hd => [|/(text_column_mask _) ->]; rewrite ?comparable_mask ?orbT // => ->.
case: (dtype_handle_missing H3 E2 Hd2) => c3 E3 D3.
case: (remove_invalid_inv H4) => p [q [_ _ _ [ge [gt [_ _ /= ->]]]]].
exists (mask_col (series_and ge gt) c3); first by rewrite /= lookup_map E3.
by rewrite dtype_of_mask D3 dtype_of_mask.
Qed.

(** The bool objects of [read_csv] are the exception: a column of True and
    a blank comes back from the central-tendency fill as a bool column. *)
Lemma bool_objects_downcast :
  fill_central (Object [:: Some (PBool true); None]) = Ok (Bool [:: true; true]).
Proof. by []. Qed.

(** X7.  Under the constant fill the two counts of the report account for
    every row that is gone: duplicates removed + invalid rows removed + rows
    left = rows uploaded. *)
Theorem constant_fill_report_accounts df0 r :
  wf df0 -> clean parse mixed epoch FillConstant df0 = Ok r ->
  removed_duplicates r + invalid_rows r + nrows (cleaned r) = nrows df0.
Proof.
move=> Hwf /clean_report [df1 [df3 [H1 H3 H4 -> _]]].
have Hwf1 := wf_parse_order_date H1 Hwf.
have Hwf2 : wf (drop_duplicates df1) by exact: wf_select.
have Hwf3 := wf_handle_missing H3 Hwf2.
case: (remove_invalid_inv H4) => p [q [Ep Eq _ _]].
have Hn name c3 : lookup name (columns df3) = Some c3 -> no_missing c3.
  move: H3 => /= [<-] /=; rewrite lookup_map.
  by case: lookup => //= c2 [<-]; exact: fill_constant_no_missing.
have /= E := remove_invalid_exact Hwf3 H4 Ep (Hn _ _ Ep) Eq (Hn _ _ Eq).
have E3 : nrows df3 = nrows (drop_duplicates df1) by move: H3 => /= [<-].
rewrite -addnA E E3 subnK; last by rewrite /nrows (index_parse_order_date H1).
by rewrite /nrows /=; apply: size_subseq; exact: mask_subseq.
Qed.

End Further.

(** X4.  The central-tendency fill raises exactly when some column that is
    neither int64 nor float64 has no value at all: [mode()[0]] has nothing
    to return for it. *)
Theorem central_fill_raises_iff df :
  is_ok (handle_missing FillMeanMedianMode df) =
  all (fun nc => is_number nc.2 || has_value nc.2) (columns df).
Proof.
rewrite /=; set g := fun nc : string * column => _.
have -> : is_ok (cs <-- mapM g (columns df) ;; Ok (mkDataFrame (index df) cs)) =
          is_ok (mapM g (columns df)) by case: mapM.
rewrite mapM_okE; apply: eq_all => -[n c]; rewrite /g /= -fill_central_okE.
by case: fill_central.
Qed.

(** X5.  The count of invalid rows reported by line 74 never exceeds the
    number of rows that line 75 removes. *)
Theorem invalid_count_never_over_reports df r :
  wf df -> remove_invalid df = Ok r -> r.1 + nrows r.2 <= nrows df.
Proof. exact: remove_invalid_bound. Qed.

(** X6.  When the price and quantity columns hold no missing value, the
    reported count is exactly the number of rows the filter removes. *)
Theorem invalid_count_exact df r price quantity :
  wf df -> remove_invalid df = Ok r ->
  lookup "price" (columns df) = Some price -> no_missing price ->
  lookup "quantity" (columns df) = Some quantity -> no_missing quantity ->
  r.1 + nrows r.2 = nrows df.
Proof. exact: remove_invalid_exact. Qed.

(** ** The rows of a selection *)

Lemma rows_select m df : wf df -> rows (select m df) = mask m (rows df).
Proof.
move=> Hwf.
have Sr : size (rows df) = nrows df by rewrite size_map size_iota.
have Sz : size (rows (select m df)) = size (mask m (rows df)).
  by rewrite size_map size_iota /nrows /=; apply: size_mask_same; rewrite Sr.
apply: (@eq_from_nth _ [::]) => // j; rewrite Sz => Hj.
have Hj' : j < nrows (select m df) by rewrite -Sz size_map size_iota in Hj *.
have Hi : j < size (mask m (iota 0 (nrows df))).
  by rewrite (@size_mask_same _ _ m _ (rows df)) // size_iota Sr.
rewrite nth_rows // nth_mask_iota // Sr nth_rows; first exact: mask_iota_bound.
rewrite /row_at /select /= -map_comp; apply/eq_in_map => -[n c] Hin /=.
have Sc : size (cells c) = nrows df.
  by case/andP: Hwf => _ /allP /(_ _ Hin) /= /eqP <-; rewrite col_size_cells.
rewrite cells_mask nth_mask_iota ?Sc //.
by rewrite (@size_mask_same _ _ m _ (rows df)) // Sc Sr.
Qed.

Lemma mask_all_true A (m : bitseq) (s : seq A) :
  all id m -> size m = size s -> mask m s = s.
Proof.
by elim: m s => [|b m IH] [|x s] //= /andP [-> Hm] [/(IH _ Hm) ->].
Qed.

Lemma mask_col_all_true m c : all id m -> size m = col_size c -> mask_col m c = c.
Proof. by case: c => xs /= Hm Hs; rewrite mask_all_true. Qed.

Lemma select_all_true m df :
  wf df -> all id m -> size m = nrows df -> select m df = df.
Proof.
case: df => idx cols /andP [_ /= /allP Hc] Hm Hs; rewrite /select /=.
rewrite mask_all_true //; congr mkDataFrame.
rewrite -[RHS]map_id; apply/eq_in_map => -[n c] /Hc /= /eqP Ec.
by rewrite mask_col_all_true // Ec.
Qed.

(** ** Deduplication, once more *)

Lemma duplicated_from_kept seen seenK R :
  {subset seenK <= seen} ->
  all negb (duplicated_from seenK
              (mask [seq ~~ b | b <- duplicated_from seen R] R)).
Proof.
elim: R seen seenK => [|r0 R IH] seen seenK Hsub //=.
case Hd: (has (row_eqb r0) seen) => /=.
  by apply: IH => x /Hsub; rewrite mem_rcons in_cons => ->; rewrite orbT.
have -> /= : has (row_eqb r0) seenK = false.
  apply/negbTE/negP => /hasP [x /Hsub Hx Hr].
  by move/negP: Hd; apply; apply/hasP; exists x.
apply: IH => x; rewrite !mem_rcons !in_cons => /orP [->|/Hsub ->] //.
by rewrite orbT.
Qed.

Lemma first_row_kept df : 0 < nrows df -> 0 < nrows (drop_duplicates df).
Proof.
rewrite /drop_duplicates /duplicated /rows /nrows /=.
by case: (index df) => [|l idx].
Qed.

Lemma size_duplicated df : size (duplicated df) = nrows df.
Proof. by rewrite /duplicated size_duplicated_from size_map size_iota. Qed.

Lemma duplicated_drop_duplicates df :
  wf df -> all negb (duplicated (drop_duplicates df)).
Proof.
move=> Hwf; rewrite {1}/duplicated /drop_duplicates rows_select //.
exact: duplicated_from_kept.
Qed.

(** ** Filtering twice *)

Lemma numeric_view_mask m c v :
  numeric_view c = Ok v -> numeric_view (mask_col m c) = Ok (mask m v).
Proof.
case: c => xs //=.
- by case=> <-; rewrite map_mask.
- by case=> <-.
- case: ifP => // Hn [<-]; rewrite -map_mask.
  by case: ifP => // /has_mask; rewrite Hn.
- by case=> <-; rewrite map_mask.
Qed.

Lemma compare0_mask op m c b :
  compare0 op c = Ok b -> compare0 op (mask_col m c) = Ok (mask m b).
Proof.
move=> /bind_ok [v Hv] /= [<-]; rewrite /compare0 (numeric_view_mask m Hv) /=.
by rewrite map_mask.
Qed.

Lemma holds_ge0_lt0 c : holds ge0 c -> holds lt0 c = false.
Proof. by rewrite /holds /ge0 /lt0; case: cell_number => // q ->. Qed.

Lemma holds_gt0_le0 c : holds gt0 c -> holds le0 c = false.
Proof. by rewrite /holds /gt0 /le0; case: cell_number => // q /negbTE. Qed.

Lemma valid_rows_masks (P Qs : seq cell) :
  all (holds ge0) P -> all (holds gt0) Qs ->
  all id (series_and [seq holds ge0 x | x <- P] [seq holds gt0 x | x <- Qs]) /\
  count id (series_or [seq holds lt0 x | x <- P] [seq holds le0 x | x <- Qs]) = 0.
Proof.
rewrite /series_and /series_or.
elim: P Qs => [|x P IH] [|y Qs] //= /andP [Hx HP] /andP [Hy HQ].
case: (IH _ HP HQ) => -> ->.
by rewrite Hx Hy (holds_ge0_lt0 Hx) (holds_gt0_le0 Hy).
Qed.

(** X11.  Filtering the invalid rows a second time removes nothing and
    counts nothing. *)
Theorem remove_invalid_idempotent df r :
  wf df -> remove_invalid df = Ok r -> remove_invalid r.2 = Ok (0, r.2).
Proof.
move=> Hwf Hr; have Hwf' := wf_remove_invalid Hr Hwf.
case: (remove_invalid_inv Hr) => p [q [Ep Eq]].
move=> [lt [le [Hlt Hle _]]] [ge [gt [Hge Hgt Er]]].
set m := series_and ge gt in Er.
have Ep' : lookup "price" (columns r.2) = Some (mask_col m p).
  by rewrite Er /= lookup_map Ep.
have Eq' : lookup "quantity" (columns r.2) = Some (mask_col m q).
  by rewrite Er /= lookup_map Eq.
rewrite /remove_invalid /getitem Ep' Eq' /=.
rewrite (compare0_mask m Hlt) /= (compare0_mask m Hle) /=.
rewrite (compare0_mask m Hge) /= (compare0_mask m Hgt) /=.
rewrite (compare0_cells Hlt) (compare0_cells Hle) (compare0_cells Hge).
rewrite (compare0_cells Hgt) -!map_mask.
have HP : all (holds ge0) (mask m (cells p)).
  by rewrite /m (compare0_cells Hge); exact: all_mask_and_l.
have HQ : all (holds gt0) (mask m (cells q)).
  by rewrite /m (compare0_cells Hgt); exact: all_mask_and_r.
case: (valid_rows_masks HP HQ) => Hall ->.
rewrite select_all_true // size_series_and !size_map -!cells_mask.
by rewrite (wf_lookup Hwf' Ep') (wf_lookup Hwf' Eq') minnn.
Qed.

(** ** The candlestick tab after cleaning *)

Lemma daily_eq df od pr v :
  lookup "order_date" (columns df) = Some od ->
  lookup "price" (columns df) = Some pr -> numeric_view pr = Ok v ->
  daily df = (date <-- dt_date od ;; Ok (Some (groupby_agg date v))).
Proof.
move=> Eo Ep Ev; rewrite /daily /column_names -!lookup_names Eo Ep /=.
rewrite /getitem Eo /=; case: dt_date => //= dates.
by rewrite Ep /= Ev.
Qed.

Lemma no_missing_datetime zs :
  no_missing (Datetime64 zs) = ~~ has missing zs.
Proof.
rewrite /no_missing /isnull_sum /= -leqn0 leqNgt -has_count has_map.
by congr (~~ _); apply: eq_has; case.
Qed.

Section Candlestick.

Variable parse : seq (option pyobj) -> string -> option Z.
Variable mixed : seq (option pyobj) -> bool.
Variable epoch : Q -> option Z.

(** X12.  When line 21 has coerced [order_date] to a datetime64 column
    (pandas does unless the strings carry different UTC offsets), a
    successful cleaning is followed by a candlestick tab that never takes its
    warning branch (both columns are there) and that computes the daily
    table unless the constant fill met a missing date: filling NaT with
    "Unknown" leaves an object column, on which [.dt] raises
    AttributeError. *)
Theorem candlestick_after_cleaning opt df0 df1 r ys :
  clean parse mixed epoch opt df0 = Ok r ->
  parse_order_date parse mixed epoch df0 = Ok df1 ->
  lookup "order_date" (columns df1) = Some (Datetime64 ys) ->
  let od := mask_col [seq ~~ b | b <- duplicated df1] (Datetime64 ys) in
  lookup "order_date" (columns (drop_duplicates df1)) = Some od /\
  if opt is FillConstant then
    if no_missing od then exists out, daily (cleaned r) = Ok (Some out)
    else daily (cleaned r) = Raise AttributeError
  else exists out, daily (cleaned r) = Ok (Some out).
Proof.
move=> /clean_inv [df1' [df3 [H1 H3 H4]]] H1'; move: H1; rewrite H1' => -[E1].
rewrite -{df1'}E1 in H3.
move=> Ey /=; split; first by rewrite lookup_map Ey.
case: (remove_invalid_inv H4) => p [q [Ep Eq _ [ge [gt [Hge Hgt /= Er]]]]].
case/bind_ok: (Hge) => v Hv _.
have D od3 : lookup "order_date" (columns df3) = Some od3 ->
    daily (cleaned r) =
    (date <-- dt_date (mask_col (series_and ge gt) od3) ;;
     Ok (Some (groupby_agg date (mask (series_and ge gt) v)))).
  move=> E3; apply: daily_eq.
  - by rewrite Er /= lookup_map E3.
  - by rewrite Er /= lookup_map Ep.
  - exact: numeric_view_mask.
set md := [seq ~~ b | b <- duplicated df1].
case: opt H3 => /=.
- case=> E3.
  have E : lookup "order_date" (columns df3) =
           Some (mask_col [seq ~~ has isna r0 | r0 <- rows (drop_duplicates df1)]
                          (mask_col md (Datetime64 ys))).
    by rewrite -E3 /= !lookup_map Ey.
  by rewrite (D _ E) /=; eexists.
- move=> /bind_ok [cs Hm] /= [E3].
  move: (lookup_mapM "order_date" Hm); rewrite lookup_map Ey /= => -[c'].
  move=> /bind_ok [m _] /= [<-] Ec'.
  have E : lookup "order_date" (columns df3) =
           Some (Datetime64 (fillna m (mask md ys))) by rewrite -E3.
  by rewrite (D _ E) /=; eexists.
- case=> E3; rewrite no_missing_datetime.
  have E : lookup "order_date" (columns df3) =
           Some (fill_constant (Datetime64 (mask md ys))).
    by rewrite -E3 /= !lookup_map Ey.
  by rewrite (D _ E) /=; case: (has _ (mask md ys)) => //=; eexists.
Qed.

(** With different UTC offsets line 21 leaves an object column, and the tab
    raises under the drop strategy as well. *)
Lemma mixed_offsets_raise :
  exists2 r, clean offset_parse offset_mixed sample_epoch DropRows offset_dates = Ok r
           & dtype_of_column (cleaned r) "order_date" = Some object /\
             daily (cleaned r) = Raise AttributeError.
Proof. by eexists; first by vm_compute; reflexivity. Qed.

Lemma daily_day opt df0 r out d o :
  wf df0 ->
  clean parse mixed epoch opt df0 = Ok r ->
  daily (cleaned r) = Ok (Some out) -> (d, o) \in out ->
  exists p0 g,
    [/\ open o = Some p0, close o = Some (last p0 g),
        exists2 h, high o = Some h & is_max h (p0 :: g)
      & exists2 l, low o = Some l & is_min l (p0 :: g)].
Proof.
move=> Hwf Hc Hd.
have Hwfr := wf_clean Hc Hwf.
case/clean_inv: Hc => df1 [df3 [_ _ H4]].
move: Hd; rewrite /daily; case: ifP => // _.
rewrite /getitem; case Eod: (lookup "order_date") => [od|] //=.
move=> /bind_ok [dates Hdates] /=; case Epr: (lookup "price") => [pr|] //=.
move=> /bind_ok [v Hv] /= [Eout].
have Hsome : all isSome v := remove_invalid_price_present H4 Epr Hv.
have := all_isSome_map Hsome; move: (present v) => prices Ev.
move: Hv Eout; rewrite {v Hsome}Ev => Hv Eout.
have Hsz : size dates = size prices.
  rewrite (dt_date_size Hdates) col_size_cells (wf_lookup Hwfr Eod).
  rewrite -(wf_lookup Hwfr Epr) -col_size_cells -(numeric_view_size Hv).
  by rewrite size_map.
rewrite -Eout => /mapP [d' Hd' [_ ->]].
have Hin : d' \in present dates by move: Hd'; rewrite mem_sort mem_undup.
rewrite /agg !group_some.
case Eg: (day_prices d' dates prices) (day_prices_nonempty Hsz Hin)
  => [|p0 g] // _.
exists p0, g; split=> //=.
- by eexists; first by []; apply: reduce_Qmaxb.
- by eexists; first by []; apply: reduce_Qminb.
Qed.

(** X13.  Every candle of the daily table is well formed: its low is at
    most its open and its close, and these are at most its high. *)
Theorem candles_well_formed opt df0 r out d o :
  wf df0 ->
  clean parse mixed epoch opt df0 = Ok r ->
  daily (cleaned r) = Ok (Some out) -> (d, o) \in out ->
  exists op hi lo cl,
    [/\ open o = Some op, high o = Some hi, low o = Some lo, close o = Some cl
      & ((lo <= op)%Q /\ (op <= hi)%Q) /\ ((lo <= cl)%Q /\ (cl <= hi)%Q)].
Proof.
move=> Hwf Hc Hd Hin.
case: (daily_day Hwf Hc Hd Hin) => p0 [g [Ho Hcl [h Hh [_ Hmax]] [l Hl [_ Hmin]]]].
exists p0, h, l, (last p0 g); split=> //.
have H0 : p0 \in p0 :: g by rewrite mem_head.
have H1 : last p0 g \in p0 :: g by exact: mem_last.
by split; split; [exact: Hmin|exact: Hmax|exact: Hmin|exact: Hmax].
Qed.

End Candlestick.

(** ** The column lists and the tabs that use them *)

Lemma lookup_uniq name c (cs : seq (string * column)) :
  uniq [seq nc.1 | nc <- cs] -> (name, c) \in cs -> lookup name cs = Some c.
Proof.
elim: cs => [|[n c0] cs IH] //= /andP [Hn Hu]; rewrite in_cons.
have -> : String.eqb n name = (n == name) by [].
case/orP=> [/eqP [<- <-]|Hin]; first by rewrite eqxx.
have Hname : name \in [seq nc.1 | nc <- cs] by apply/mapP; exists (name, c).
have -> : (n == name) = false by apply/negbTE/eqP => E; rewrite E Hname in Hn.
exact: IH.
Qed.

Lemma select_dtypesP (p : column -> bool) df name :
  reflect (exists2 c, (name, c) \in columns df & p c)
          (name \in select_dtypes p df).
Proof.
apply: (iffP mapP) => [[[n c]]|[c Hin Hp]].
  by rewrite mem_filter /= => /andP [Hp Hin] ->; exists c.
by exists (name, c) => //; rewrite mem_filter Hp.
Qed.

(** X14.  The numeric and the categorical list are taken from the column
    names in their order; no identifier is numeric and, the names being
    distinct, no column is both numeric and categorical. *)
Theorem column_lists_separate df :
  uniq (column_names df) ->
  [/\ subseq (numeric_cols df) (column_names df),
      subseq (categorical_cols df) (column_names df),
      forall name, name \in numeric_cols df -> name \notin id_cols
    & forall name, name \in numeric_cols df -> name \notin categorical_cols df].
Proof.
move=> Hu; split.
- apply: subseq_trans (filter_subseq _ _) _.
  by apply: map_subseq; exact: filter_subseq.
- by apply: map_subseq; exact: filter_subseq.
- exact: numeric_cols_not_id.
- move=> name; rewrite mem_filter => /andP [_ /select_dtypesP [c Hc Hn]].
  apply/negP => /select_dtypesP [c' Hc' Ho].
  move: (lookup_uniq Hu Hc); rewrite (lookup_uniq Hu Hc') => -[E].
  by rewrite E in Ho; case: c Hn Ho {Hc E}.
Qed.

Lemma size_uniques T (eqb : T -> T -> bool) (s : seq T) :
  size (uniques eqb s) <= size s.
Proof.
elim: s => [|x s IH] //=; rewrite ltnS.
by apply: leq_trans IH; rewrite size_filter count_size.
Qed.

Lemma nunique_le c : nunique c <= col_size c.
Proof.
rewrite /nunique col_size_cells; apply: leq_trans (size_uniques _ _) _.
by rewrite size_filter count_size.
Qed.

(** X15.  A column picked from [numeric_cols] is always found, and when the
    table has fewer than 10 rows it is drawn as a count plot. *)
Theorem univariate_small_table df col :
  wf df -> col \in numeric_cols df ->
  exists2 v, univariate df col = Ok (Some v)
           & nrows df < 10 -> v = CountPlot.
Proof.
move=> Hwf Hcol; rewrite /univariate.
case E: (numeric_cols df) (Hcol) => [|x l] // _.
move: Hcol; rewrite mem_filter => /andP [_ /mapP [[n c]]].
rewrite mem_filter /= => /andP [_ Hin] En.
have Hl : isSome (lookup col (columns df)).
  by rewrite lookup_names; apply/mapP; exists (n, c).
rewrite /getitem; case El: lookup Hl => [c'|] //= _.
exists (univariate_plot c') => // Hn; rewrite /univariate_plot.
have -> // : nunique c' < 10.
apply: leq_ltn_trans (nunique_le c') _.
by rewrite col_size_cells (wf_lookup Hwf El).
Qed.

Section Tabs.

Variable parse : seq (option pyobj) -> string -> option Z.
Variable mixed : seq (option pyobj) -> bool.
Variable epoch : Q -> option Z.

(** X16.  After a successful cleaning the box plot of the bivariate tab is
    drawn exactly when the upload has a [category] column: [price] is
    always there. *)
Theorem bivariate_after_cleaning opt df0 r :
  clean parse mixed epoch opt df0 = Ok r ->
  bivariate_shown (cleaned r) = ("category" \in column_names df0).
Proof.
move=> Hc; rewrite /bivariate_shown (names_clean Hc).
case/clean_inv: Hc => df1 [df3 [H1 H3 H4]].
case: (remove_invalid_inv H4) => p [q [Ep _ _ _]].
have: "price" \in column_names df3 by rewrite /column_names -lookup_names Ep.
rewrite (names_handle_missing H3) names_select (names_parse_order_date H1) => ->.
by rewrite andbT.
Qed.

Lemma boxed_bool_eqb a b : cell_eqb a b -> predC boxed_bool a = predC boxed_bool b.
Proof.
by case: a => [z|q|[s|t|x]|x|t|]; case: b => [z'|q'|[s'|t'|x']|x'|t'|].
Qed.

Lemma has_unorderable xs :
  has (predC boxed_bool) (cells (Object xs)) ->
  has unorderable (fillna (PStr unknown) xs).
Proof. by elim: xs => [|[[s|t|b]|] xs IH]. Qed.

(** X17.  A price column read as text (say ["$5"]) stops the cleaning under
    the constant fill when the upload has an [order_date] column: the
    comparison of line 74 raises TypeError.  This holds of every object
    column but one made of Python bools only, which [read_csv] does not
    produce (it needs a blank to leave bools in an object column). *)
Theorem text_price_raises df0 xs :
  wf df0 ->
  "order_date" \in column_names df0 ->
  lookup "price" (columns df0) = Some (Object xs) -> ~~ all is_pybool xs ->
  clean parse mixed epoch FillConstant df0 = Raise TypeError.
Proof.
move=> Hwf; rewrite /column_names -lookup_names => Hod Ep Ht.
rewrite /clean /parse_order_date /getitem.
case Eod: lookup Hod => [od|] //= _.
set df1 := setitem df0 _ _; set m := [seq ~~ b | b <- duplicated df1].
have H1 : parse_order_date parse mixed epoch df0 = Ok df1.
  by rewrite /parse_order_date /getitem Eod.
have Hwf1 := wf_parse_order_date H1 Hwf.
have Ep1 : lookup "price" (columns df1) = Some (Object xs).
  by rewrite (lookup_parse_order_date H1).
have Hb : has (predC boxed_bool) (cells (Object xs)).
  by move: Ht; rewrite -has_predC /= has_map; apply: sub_has => -[[]|].
have Hm : has (predC boxed_bool) (cells (mask_col m (Object xs))).
  exact: (drop_duplicates_has boxed_bool_eqb Hwf1 (lookup_in Ep1) Hb).
rewrite /remove_invalid /getitem /= !lookup_map Ep1 /= /compare0 /=.
by rewrite (has_unorderable Hm).
Qed.

End Tabs.

(** ** The cleaned table as a whole *)

Lemma no_missing_mask m c : no_missing c -> no_missing (mask_col m c).
Proof.
rewrite /no_missing /isnull_sum cells_mask => /eqP H.
by rewrite -leqn0 -H leq_count_mask.
Qed.

Lemma all_missing_mask m c : all_missing c -> all_missing (mask_col m c).
Proof.
by rewrite /all_missing cells_mask; exact: all_mask.
Qed.

Lemma duplicated_from_mask seen seenK m R :
  {subset seenK <= seen} ->
  all negb (duplicated_from seen R) ->
  all negb (duplicated_from seenK (mask m R)).
Proof.
elim: R m seen seenK => [|r0 R IH] [|b m] seen seenK Hsub //=.
case/andP=> Hd Hall; case: b => /=; last first.
  apply: IH Hall => x /Hsub; rewrite mem_rcons in_cons => ->.
  by rewrite orbT.
apply/andP; split.
  apply/negP => /hasP [x /Hsub Hx Hr].
  by move/negP: Hd; apply; apply/hasP; exists x.
apply: IH Hall => x; rewrite !mem_rcons !in_cons => /orP [->|/Hsub ->] //.
by rewrite orbT.
Qed.

Lemma opposite_infinities_mask m c :
  opposite_infinities (mask_col m c) -> opposite_infinities c.
Proof.
case: c => //= xs /andP [H1 H2].
have Hsub : {subset present (mask m xs) <= present xs}.
  by move=> x; rewrite !mem_pmap !map_id; exact: mem_mask.
by apply/andP; split; [move: H1|move: H2]; move=> /hasP [x /Hsub Hx Hp];
   apply/hasP; exists x.
Qed.

Lemma mem_assign name c0 (cs : seq (string * column)) n c :
  (n, c) \in assign name c0 cs -> (n, c) \in cs \/ c = c0.
Proof.
elim: cs => [|[n1 c1] cs IH] /=; first by rewrite inE => /eqP [_ ->]; right.
case: String.eqb; rewrite !in_cons.
  by case/orP=> [/eqP [_ ->]|->]; [right|left; rewrite orbT].
by case/orP=> [->|/IH [->|->]]; [left|left; rewrite orbT|right].
Qed.

Section WholeTable.

Variable parse : seq (option pyobj) -> string -> option Z.
Variable mixed : seq (option pyobj) -> bool.
Variable epoch : Q -> option Z.

Lemma in_parse_order_date df df1 n c :
  parse_order_date parse mixed epoch df = Ok df1 ->
  (n, c) \in columns df1 -> dtype_of c = float64 -> (n, c) \in columns df.
Proof.
move=> /bind_ok [od _] /= [<-] /= /mem_assign [//|->].
by case: od => xs //=; case: ifP.
Qed.

(** X18.  No column of the cleaned table holds a missing value, except that
    under the central-tendency fill a float column without any value stays
    entirely missing, and a float column that came with both infinities may
    keep its missing values. *)
Theorem cleaned_table_missing_values opt df0 r name c :
  clean parse mixed epoch opt df0 = Ok r ->
  (name, c) \in columns (cleaned r) ->
  no_missing c \/
  [/\ opt = FillMeanMedianMode, dtype_of c = float64
     & all_missing c \/
       exists2 c0, (name, c0) \in columns df0 & opposite_infinities c0].
Proof.
move=> /clean_inv [df1 [df3 [H1 H3 H4]]].
case: (remove_invalid_inv H4) => p [q [_ _ _ [ge [gt [_ _ /= ->]]]]] /=.
case/mapP=> -[n c3] Hin [-> ->] /=.
case: opt H3 => /=.
- case=> E3; left; apply: no_missing_mask.
  by apply: (@dropna_no_missing (drop_duplicates df1) n); rewrite E3.
- move=> /bind_ok [cs Hm] /= [E3]; move: Hin; rewrite -E3 /=.
  case/(in_mapM Hm) => c2 Hc2 /fill_central_no_missing [Hno|[Ec [xs Ex Ha]]].
    by left; exact: no_missing_mask.
  right; split=> //; first by rewrite dtype_of_mask Ec Ex.
  case: Ha => [Ha|/infinite_middles_opposite Ho].
    by left; apply: all_missing_mask; rewrite Ec.
  right; case/mapP: Hc2 => -[n1 c1] Hc1 [En Ec2].
  have Ho1 : opposite_infinities c1.
    by move: Ho; rewrite Ec2; exact: opposite_infinities_mask.
  exists c1 => //; rewrite En; apply: (in_parse_order_date H1) => //.
  by case: (c1) Ho1.
- case=> E3; left; apply: no_missing_mask; move: Hin; rewrite -E3 /=.
  by case/mapP=> -[n2 c2] _ [_ ->]; exact: fill_constant_no_missing.
Qed.

(** X19.  With the drop strategy the cleaned table holds no two equal rows:
    later steps only take rows away.  (The two fills run after the
    deduplication and can make rows equal again.) *)
Theorem drop_strategy_leaves_no_duplicates df0 r :
  wf df0 -> clean parse mixed epoch DropRows df0 = Ok r ->
  all negb (duplicated (cleaned r)).
Proof.
move=> Hwf /clean_inv [df1 [df3 [H1 /= [E3] H4]]].
have Hwf1 := wf_parse_order_date H1 Hwf.
have Hwf2 : wf (drop_duplicates df1) by exact: wf_select.
have Hwf3 : wf df3 by rewrite -E3; exact: wf_select.
case: (remove_invalid_inv H4) => p [q [_ _ _ [ge [gt [_ _ /= ->]]]]].
rewrite /duplicated rows_select // -E3 /dropna rows_select //.
apply: (@duplicated_from_mask [::] [::]) => //.
apply: (@duplicated_from_mask [::] [::]) => //.
exact: (duplicated_drop_duplicates Hwf1).
Qed.

End WholeTable.

(** ** Instances of the further properties on the sample upload *)

Lemma sample_wf : wf sample.
Proof. by vm_compute. Qed.

Lemma sample_central_ok :
  clean sample_parse sample_mixed sample_epoch FillMeanMedianMode sample = Ok sample_central.
Proof. by vm_compute. Qed.

Lemma sample_constant_ok :
  clean sample_parse sample_mixed sample_epoch FillConstant sample = Ok sample_constant.
Proof. by vm_compute. Qed.

Lemma sample_parsed_ok :
  parse_order_date sample_parse sample_mixed sample_epoch sample = Ok sample_parsed.
Proof. by vm_compute. Qed.

Lemma cleaning_never_adds_rows_witness :
  nrows (cleaned sample_central) <= nrows sample.
Proof. exact: (cleaning_never_adds_rows sample_central_ok). Defined.

Lemma cleaning_keeps_columns_witness :
  column_names (cleaned sample_central) = column_names sample.
Proof. exact: (cleaning_keeps_columns sample_central_ok). Defined.

Lemma cleaning_keeps_dtypes_witness :
  exists2 c', lookup "category" (columns (cleaned sample_central)) = Some c'
            & dtype_of c' = object.
Proof.
apply: (@cleaning_keeps_dtypes sample_parse sample_mixed sample_epoch FillMeanMedianMode
          sample sample_central "category"
          (Object [:: str "a"; None; str "b"; str "b"; str "a"; str "b"])).
- exact: sample_central_ok.
- by [].
- by vm_compute.
- by [].
Defined.

Lemma invalid_count_never_over_reports_witness :
  invalid_rows sample_central + nrows (cleaned sample_central) <=
  nrows sample_filled.
Proof.
apply: (@invalid_count_never_over_reports sample_filled
          (invalid_rows sample_central, cleaned sample_central)).
- by vm_compute.
- by vm_compute.
Defined.

Lemma invalid_count_exact_witness :
  invalid_rows sample_central + nrows (cleaned sample_central) =
  nrows sample_filled.
Proof.
apply: (@invalid_count_exact sample_filled
          (invalid_rows sample_central, cleaned sample_central)
          (Float64 [:: Some 10; Some (11 # 2); Some 8; Some 3; Some (-4)%Q]%Q)
          (Float64 [:: Some 1; Some 2; Some (3 # 2); Some 1; Some 2]%Q)).
- by vm_compute.
- by vm_compute.
- by vm_compute.
- by vm_compute.
- by vm_compute.
- by vm_compute.
Defined.

Lemma constant_fill_report_accounts_witness :
  removed_duplicates sample_constant + invalid_rows sample_constant +
  nrows (cleaned sample_constant) = nrows sample.
Proof.
exact: (constant_fill_report_accounts sample_wf sample_constant_ok).
Defined.

Lemma remove_invalid_idempotent_witness :
  remove_invalid (cleaned sample_central) = Ok (0, cleaned sample_central).
Proof.
apply: (@remove_invalid_idempotent sample_filled
          (invalid_rows sample_central, cleaned sample_central)).
- by vm_compute.
- by vm_compute.
Defined.

Lemma candlestick_after_cleaning_witness :
  lookup "order_date" (columns (drop_duplicates sample_parsed)) =
    Some sample_dates /\
  daily (cleaned sample_constant) = Raise AttributeError.
Proof.
have Eod : lookup "order_date" (columns sample_parsed) =
           Some (Datetime64 sample_timestamps) by vm_compute.
exact: (candlestick_after_cleaning sample_constant_ok sample_parsed_ok Eod).
Defined.

Lemma candles_well_formed_witness :
  let o := mkOhlc (Some 10%Q) (Some 10%Q) (Some 3%Q) (Some 3%Q) in
  exists op hi lo cl,
    [/\ open o = Some op, high o = Some hi, low o = Some lo, close o = Some cl
      & ((lo <= op)%Q /\ (op <= hi)%Q) /\ ((lo <= cl)%Q /\ (cl <= hi)%Q)].
Proof.
move=> o.
apply: (@candles_well_formed sample_parse sample_mixed sample_epoch FillMeanMedianMode
          sample sample_central sample_daily 19723%Z o).
- exact: sample_wf.
- exact: sample_central_ok.
- by vm_compute.
- by vm_compute.
Defined.

Lemma column_lists_separate_witness :
  [/\ subseq (numeric_cols sample) (column_names sample),
      subseq (categorical_cols sample) (column_names sample),
      forall name, name \in numeric_cols sample -> name \notin id_cols
    & forall name, name \in numeric_cols sample ->
                   name \notin categorical_cols sample].
Proof.
apply: column_lists_separate.
by vm_compute.
Defined.

Lemma univariate_small_table_witness :
  exists2 v, univariate (cleaned sample_central) "price" = Ok (Some v)
           & nrows (cleaned sample_central) < 10 -> v = CountPlot.
Proof.
apply: univariate_small_table.
- by vm_compute.
- by vm_compute.
Defined.

Lemma bivariate_after_cleaning_witness :
  bivariate_shown (cleaned sample_central) = ("category" \in column_names sample).
Proof. exact: (bivariate_after_cleaning sample_central_ok). Defined.

Lemma text_price_raises_witness :
  clean sample_parse sample_mixed sample_epoch FillConstant text_price = Raise TypeError.
Proof.
apply: (@text_price_raises sample_parse sample_mixed sample_epoch text_price
          [:: str "$5"; str "$7"]).
- by vm_compute.
- by vm_compute.
- by vm_compute.
- by [].
Defined.

Lemma cleaned_table_missing_values_witness :
  no_missing (Float64 [:: Some 10; Some (11 # 2); Some 8; Some 3]%Q) \/
  [/\ FillMeanMedianMode = FillMeanMedianMode,
      dtype_of (Float64 [:: Some 10; Some (11 # 2); Some 8; Some 3]%Q) = float64
    & all_missing (Float64 [:: Some 10; Some (11 # 2); Some 8; Some 3]%Q) \/
      exists2 c0, ("price", c0) \in columns sample & opposite_infinities c0].
Proof.
apply: (@cleaned_table_missing_values sample_parse sample_mixed sample_epoch
          FillMeanMedianMode sample sample_central "price").
- exact: sample_central_ok.
- by vm_compute.
Defined.

Lemma drop_strategy_leaves_no_duplicates_witness :
  all negb (duplicated (cleaned sample_drop)).
Proof.
apply: (@drop_strategy_leaves_no_duplicates sample_parse sample_mixed sample_epoch sample).
- exact: sample_wf.
- by vm_compute.
Defined.
